(** * DTD: the Goertler deconvolution model

    A shallow embedding of [src/models.hpp] and [src/models.cc]
    (namespace [dtd::models]) and the properties of its objective, gradient
    and projection operators.

    Number model.  [ftype] is C++ [double]; here it is read over the real
    numbers: arithmetic is exact, there is no rounding, no infinity and no
    NaN.  The statements below are statements about that exact reading of
    the code, which agrees with the code (up to rounding) as long as no
    division by zero occurs; statements whose truth depends on the values
    computed carry that as a hypothesis.  What the code does at a division
    by zero is the subject of the module [Double], which reads the gradient
    in IEEE 754 binary64.  Integers ([int], [Eigen::Index]) are [Z], loop
    counters and sizes of containers are [nat]. *)

From Stdlib Require Import Reals Lra Lia ZArith List String Permutation.
From Stdlib Require Floats Uint63.
From stdpp Require Import base decidable option list gmap.
Import ListNotations.

#[local] Open Scope R_scope.

(* ================================================================== *)
(** ** Scalars and the helpers of <algorithm> / <cmath> used by the code *)

Abbreviation ftype := R (only parsing).

(** [a < b] on doubles, as a boolean. *)
Definition flt (a b : ftype) : bool := if Rlt_dec a b then true else false.

(** [std::max(a, b)] is [(a < b) ? b : a]; [std::min(a, b)] is
    [(b < a) ? b : a]. *)
Definition std_max (a b : ftype) : ftype := if flt a b then b else a.
Definition std_min (a b : ftype) : ftype := if flt b a then b else a.

(** [template<typename T> int sgn(T x) { return (T(0) < x) - (x < T(0)); }] *)
Definition sgn (x : ftype) : Z := (Z.b2z (flt 0 x) - Z.b2z (flt x 0))%Z.

(** [for (i = 0; i < n; ++i) body], threading the loop's state. *)
Definition for_upto {S : Type} (n : nat) (body : nat -> S -> S) (s : S) : S :=
  fold_left (fun s i => body i s) (seq 0 n) s.

(* ================================================================== *)
(** ** Outcomes: normal return, [throw std::runtime_error], failed [assert] *)

Inductive outcome (A : Type) : Type :=
| Ret (a : A)
| Throw (what : string)
| AssertFail.
Arguments Ret {A} a.
Arguments Throw {A} what.
Arguments AssertFail {A}.

#[global] Instance outcome_ret : MRet outcome := fun A a => Ret a.
#[global] Instance outcome_bind : MBind outcome := fun A B k m =>
  match m with
  | Ret a => k a
  | Throw w => Throw w
  | AssertFail => AssertFail
  end.

(** [assert(b)] of <cassert>, in a build that keeps assertions. *)
Definition assert (b : bool) : outcome unit := if b then Ret tt else AssertFail.

(* ================================================================== *)
(** ** Eigen vectors ([vec] = [Eigen::VectorXd]) *)

Abbreviation vec := (list R) (only parsing).

(** [v.coeff(i)]; the loops below only read inside [0, v.size()). *)
Definition coeff (v : vec) (i : nat) : ftype := nth i v 0.

(** [vec res(n)]: storage for [n] coefficients.  Eigen leaves them
    uninitialised; every loop that starts from such a vector overwrites all
    of them (see [write_all_map]). *)
Definition vec_sized (n : nat) : vec := repeat 0 n.

(** [v.sum()], [v.mean()], [v.norm()]. *)
Definition vsum (v : vec) : ftype := fold_right Rplus 0 v.
Definition mean (v : vec) : ftype := vsum v / INR (length v).
Definition norm (v : vec) : ftype := sqrt (vsum (map (fun x => x * x) v)).

(** Coefficient-wise expressions on [.array()] views of rows. *)
Definition arr_sub_scalar (a : vec) (c : ftype) : vec := map (fun x => x - c) a.
Definition arr_div_scalar (a : vec) (c : ftype) : vec := map (fun x => x / c) a.
Definition arr_scale (c : ftype) (a : vec) : vec := map (fun x => c * x) a.
Definition arr_sub (a b : vec) : vec := zip_with Rminus a b.

(* ================================================================== *)
(** ** Eigen matrices ([mat] = [Eigen::MatrixXd])

    A dense matrix is its two dimensions and its coefficients; only the
    coefficients inside the dimensions are meaningful. *)

Record mat : Type := Mat { rows : nat; cols : nat; mcoeff : nat -> nat -> ftype }.

(** The sum of [f 0 .. f (n-1)]. *)
Definition sum_upto (n : nat) (f : nat -> ftype) : ftype := vsum (map f (seq 0 n)).

(** [a.transpose()] *)
Definition transpose (a : mat) : mat :=
  {| rows := cols a; cols := rows a; mcoeff := fun i j => mcoeff a j i |}.

(** [g.asDiagonal()] *)
Definition asDiagonal (g : vec) : mat :=
  {| rows := length g; cols := length g;
     mcoeff := fun i j => if Nat.eqb i j then coeff g i else 0 |}.

(** [mat::Identity(r, c)] *)
Definition Identity (r c : nat) : mat :=
  {| rows := r; cols := c; mcoeff := fun i j => if Nat.eqb i j then 1 else 0 |}.

(** [a * b] (Eigen requires [a.cols() == b.rows()]). *)
Definition mmul (a b : mat) : mat :=
  {| rows := rows a; cols := cols b;
     mcoeff := fun i j => sum_upto (cols a) (fun l => mcoeff a i l * mcoeff b l j) |}.

(** [a - b] *)
Definition msub (a b : mat) : mat :=
  {| rows := rows a; cols := cols a;
     mcoeff := fun i j => mcoeff a i j - mcoeff b i j |}.

(** [a.norm()] of a matrix: the Frobenius norm. *)
Definition mnorm (a : mat) : ftype :=
  sqrt (sum_upto (rows a)
          (fun i => sum_upto (cols a) (fun j => mcoeff a i j * mcoeff a i j))).

(** [a.row(i)] read as a sequence of coefficients, [a.diagonal()]. *)
Definition mrow (a : mat) (i : nat) : vec := map (mcoeff a i) (seq 0 (cols a)).
Definition diagonal (a : mat) : vec :=
  map (fun i => mcoeff a i i) (seq 0 (Nat.min (rows a) (cols a))).

(** [mat(r, c)]: storage only, like [vec_sized]. *)
Definition mat_sized (r c : nat) : mat :=
  {| rows := r; cols := c; mcoeff := fun _ _ => 0 |}.

(** [a.row(i) = r] *)
Definition set_row (a : mat) (i : nat) (r : vec) : mat :=
  {| rows := rows a; cols := cols a;
     mcoeff := fun i' j => if Nat.eqb i' i then coeff r j else mcoeff a i' j |}.

(** A matrix written out by rows, for examples. *)
Definition mat_of_rows (l : list (list R)) : mat :=
  {| rows := length l; cols := length (nth 0 l []);
     mcoeff := fun i j => nth j (nth i l []) 0 |}.

(* ================================================================== *)
(** ** Configuration enums

    Modelled from the spec: [config.hpp] is not among the sources.  The
    enumerators that [models.cc] names are kept; any further enumerator of
    the same enum is represented by its underlying value. *)

Inductive ThresholdFunctions : Set := SOFTMAX | ThresholdFunctions_other (n : Z).
Inductive NormFunctions : Set := IDENTITY | NORM2 | NormFunctions_other (n : Z).
Inductive SubspaceFunctions : Set := POSITIVE | SubspaceFunctions_other (n : Z).

#[global] Instance ThresholdFunctions_eq_dec : EqDecision ThresholdFunctions.
Proof. solve_decision. Defined.
#[global] Instance NormFunctions_eq_dec : EqDecision NormFunctions.
Proof. solve_decision. Defined.
#[global] Instance SubspaceFunctions_eq_dec : EqDecision SubspaceFunctions.
Proof. solve_decision. Defined.

(* ================================================================== *)
(** ** Free functions of [models.cc] *)

(** [softmax]: soft thresholding, written coefficient by coefficient into a
    fresh vector. *)
Definition softmax (v : vec) (softfactor : ftype) : vec :=
  for_upto (length v)
    (fun i res =>
       let x := coeff v i in
       <[i := IZR (sgn x) * std_max (Rabs x - softfactor) 0]> res)
    (vec_sized (length v)).

(** [clampPos(vec & x)]: in place, [x(i) = std::min(x(i), 0.0)].  The
    argument is the referenced vector before the call, the result the same
    vector after it. *)
Definition clampPos (x : vec) : vec :=
  for_upto (length x) (fun i x => <[i := std_min (coeff x i) 0]> x) x.

(** [clampNeg(vec & x)]: in place, [x(i) = std::max(x(i), 0.0)]. *)
Definition clampNeg (x : vec) : vec :=
  for_upto (length x) (fun i x => <[i := std_max (coeff x i) 0]> x) x.

(** [estimate_c_direct]: [xtgxi * x^T * diag(g) * y], products taken from
    the left as C++ parses them. *)
Definition estimate_c_direct (x y : mat) (g : vec) (xtgxi : mat) : mat :=
  mmul (mmul (mmul xtgxi (transpose x)) (asDiagonal g)) y.

(** [check_posdefmat]: the tolerance is [n*n*eps] with [n] a [std::size_t]
    (sizes here are far below the point where [n*n] would wrap). *)
Definition check_posdefmat (x : mat) (g : vec) (xtgxi : mat) (eps : ftype) : bool :=
  let n := cols x in
  let zero :=
    msub (mmul (mmul (mmul xtgxi (transpose x)) (asDiagonal g)) x) (Identity n n) in
  flt (mnorm zero) (INR (n * n) * eps).

(** The weighted Gram matrix [x^T * diag(g) * x] of [invxtgx]. *)
Definition xtgx_of (x : mat) (g : vec) : mat :=
  mmul (mmul (transpose x) (asDiagonal g)) x.

Section Model.

(** Eigen's [A.llt().solve(B)] (<Eigen/Cholesky>, an external library): the
    Cholesky factorisation of [A] followed by two triangular solves.  It
    always returns a matrix; whether the factorisation succeeded is only
    reported by [LLT::info()], which [models.cc] never reads. *)
Variable llt_solve : mat -> mat -> mat.

(** The statistics primitives of [utils.hpp] (namespace [stat]), which is
    not among the sources: they are parameters of the model. *)
Variable stat_cor : vec -> vec -> ftype.
Variable stat_cov : vec -> vec -> ftype.
Variable stat_std : vec -> ftype.

(** [invxtgx] *)
Definition invxtgx (x : mat) (g : vec) : mat :=
  let xtgx := xtgx_of x g in
  let xi := llt_solve xtgx (Identity (cols x) (cols x)) in
  xi.

(** ** class GoertlerModel

    [models.hpp] declares [m_ngenes], [m_x], [m_y], [m_c]; [models.cc] also
    reads [m_ncells], [m_nsamples] and the three configured variants, so the
    object carries all of them. *)
Record GoertlerModel : Type := {
  m_ngenes : Z;
  m_ncells : Z;
  m_nsamples : Z;
  m_x : mat;
  m_y : mat;
  m_c : mat;
  m_threshfn : ThresholdFunctions;
  m_normfn : NormFunctions;
  m_subspfn : SubspaceFunctions
}.

(** [GoertlerModel(mat x, mat y, mat c) : m_x(x), m_y(y), m_c(c) {}].
    The initialiser list names three members; every other member keeps
    whatever the object's storage held before, which is [storage] here. *)
Definition GoertlerModel_ctor (storage : GoertlerModel) (x y c : mat) : GoertlerModel :=
  {| m_ngenes := m_ngenes storage;
     m_ncells := m_ncells storage;
     m_nsamples := m_nsamples storage;
     m_x := x; m_y := y; m_c := c;
     m_threshfn := m_threshfn storage;
     m_normfn := m_normfn storage;
     m_subspfn := m_subspfn storage |}.

(** [dim()]: [static_cast<std::size_t>(m_ngenes)], a 64-bit unsigned value. *)
Definition dim (self : GoertlerModel) : Z := (m_ngenes self mod 2 ^ 64)%Z.

(** [GoertlerModel::evaluate(g, xtgxi)] *)
Definition evaluate (self : GoertlerModel) (g : vec) (xtgxi : mat) : outcome ftype :=
  let res := 0 in
  assert (Z.of_nat (length g) =? m_ngenes self)%Z ;;
  assert (Z.of_nat (rows xtgxi) =? m_ncells self)%Z ;;
  assert (Z.of_nat (cols xtgxi) =? m_ncells self)%Z ;;
  let c_hat := estimate_c_direct (m_x self) (m_y self) g xtgxi in
  assert (Z.of_nat (rows c_hat) =? m_ncells self)%Z ;;
  assert (Z.of_nat (cols c_hat) =? m_nsamples self)%Z ;;
  let res :=
    for_upto (Z.to_nat (m_ncells self))
      (fun icell res => res - stat_cor (mrow (m_c self) icell) (mrow c_hat icell))
      res in
  Ret (res / IZR (m_ncells self)).

(** The row assigned to [A.row(icell)] in [grad_explicit_inverse].  It
    divides by [m_nsamples * std_c_hat * std_c_hat], by [m_nsamples] and by
    [std_c * std_c_hat]: this exact reading is the code's row when none of
    the three is zero (see [divisors_nonzero]); when one is, the code's row
    holds NaN or an infinity, which [Double.sensitivity_row] computes. *)
Definition sensitivity_row (self : GoertlerModel) (c_hat : mat) (icell : nat) : vec :=
  let std_c_hat := stat_std (mrow c_hat icell) in
  let std_c := stat_std (mrow (m_c self) icell) in
  let mean_c_hat := mean (mrow c_hat icell) in
  let mean_c := mean (mrow (m_c self) icell) in
  arr_div_scalar
    (arr_sub
       (arr_scale
          (stat_cov (mrow (m_c self) icell) (mrow c_hat icell)
             / (IZR (m_nsamples self) * std_c_hat * std_c_hat))
          (arr_sub_scalar (mrow c_hat icell) mean_c_hat))
       (arr_div_scalar (arr_sub_scalar (mrow (m_c self) icell) mean_c)
          (IZR (m_nsamples self))))
    (std_c * std_c_hat).

(** The matrix [tmp] of [grad_explicit_inverse], whose diagonal is the raw
    gradient. *)
Definition grad_tmp (self : GoertlerModel) (g : vec) (xtgxi A : mat) : mat :=
  mmul
    (mmul
       (mmul
          (msub (m_y self)
             (mmul (mmul (mmul (mmul (m_x self) xtgxi) (transpose (m_x self)))
                      (asDiagonal g))
                (m_y self)))
          (transpose A))
       xtgxi)
    (transpose (m_x self)).

(** The matrix [A] of [grad_explicit_inverse]: [mat(m_ncells, m_nsamples)],
    then one assigned row per cell type. *)
Definition sensitivity (self : GoertlerModel) (c_hat : mat) : mat :=
  let A := mat_sized (Z.to_nat (m_ncells self)) (Z.to_nat (m_nsamples self)) in
  for_upto (Z.to_nat (m_ncells self))
    (fun icell A => set_row A icell (sensitivity_row self c_hat icell)) A.

(** [GoertlerModel::grad_explicit_inverse(gr, g, xtgxi)]; [gr] is the
    referenced vector before the call, the returned vector is [gr] after. *)
Definition grad_explicit_inverse (self : GoertlerModel) (gr g : vec) (xtgxi : mat)
  : outcome vec :=
  assert (Z.of_nat (length g) =? m_ngenes self)%Z ;;
  let gr :=
    if negb (Z.of_nat (length gr) =? m_ngenes self)%Z
    then vec_sized (Z.to_nat (m_ngenes self)) else gr in
  let c_hat := estimate_c_direct (m_x self) (m_y self) g xtgxi in
  assert (Z.of_nat (rows c_hat) =? m_ncells self)%Z ;;
  assert (Z.of_nat (cols c_hat) =? m_nsamples self)%Z ;;
  let A := sensitivity self c_hat in
  let tmp := grad_tmp self g xtgxi A in
  let gr := diagonal tmp in
  let gr := clampPos gr in
  Ret gr.

(** [GoertlerModel::grad(gr, param)] *)
Definition grad (self : GoertlerModel) (gr param : vec) : outcome vec :=
  let xtgxi := invxtgx (m_x self) param in
  grad_explicit_inverse self gr param xtgxi.

(** [GoertlerModel::threshold(v, softfactor)] *)
Definition threshold (self : GoertlerModel) (v : vec) (softfactor : ftype) : outcome vec :=
  if decide (m_threshfn self = SOFTMAX)
  then Ret (softmax v softfactor)
  else Throw "unimplemented threshold function.".

(** [GoertlerModel::norm_constraint(vec & v)]: the result is [v] after the
    call. *)
Definition norm_constraint (self : GoertlerModel) (v : vec) : outcome vec :=
  if decide (m_normfn self = IDENTITY) then Ret v
  else if decide (m_normfn self = NORM2) then Ret (arr_div_scalar v (norm v))
  else Throw "unimplemented norm function. ".

(** [GoertlerModel::subspace_constraint(v)] *)
Definition subspace_constraint (self : GoertlerModel) (v : vec) : outcome vec :=
  if decide (m_subspfn self = POSITIVE)
  then
    let res := v in
    let res := clampNeg res in
    Ret res
  else Throw "unimplemented subspace constraint.".

End Model.

(* ================================================================== *)
(** ** Vectors as objects in memory

    [subspace_constraint] receives a reference and builds its result in a
    new object.  To speak about the caller's vector after the call, vectors
    live in a heap of objects and a reference is a location. *)

Abbreviation loc := nat (only parsing).
Abbreviation heap := (gmap nat (list R)) (only parsing).

(** [clampNeg(vec & x)] on the object that [x] refers to. *)
Definition clampNeg_at (x : loc) (h : heap) : heap :=
  for_upto (length (default [] (h !! x)))
    (fun i h =>
       match h !! x with
       | Some xv => <[x := <[i := std_max (coeff xv i) 0]> xv]> h
       | None => h
       end)
    h.

(** [subspace_constraint(vec const & v)] on the heap: [vec res(v)] is a new
    object holding a copy of [v]; it is clamped and returned.  A reference
    is bound to a live object; a location that holds none reads as the
    empty vector. *)
Definition subspace_constraint_at (self : GoertlerModel) (v : loc) (h : heap)
  : outcome (loc * heap) :=
  if decide (m_subspfn self = POSITIVE)
  then
    let res := fresh (dom h) in
    let h := <[res := default [] (h !! v)]> h in
    let h := clampNeg_at res h in
    Ret (res, h)
  else Throw "unimplemented subspace constraint.".

(* ================================================================== *)
(** ** The gradient in IEEE arithmetic

    The exact reading above has no NaN and no infinity, and its division is
    total.  Where [grad_explicit_inverse] divides by a standard deviation
    that is zero, the code's [double] division yields NaN or an infinity,
    and both travel through the products and through [std::min].  The
    module [Double] embeds the same functions over IEEE 754 binary64, the
    format of [double], with the kernel's primitive floating point numbers.

    The sums of a matrix product and of [mean()] are taken in index order
    from 0.0; the order in which Eigen adds the terms is not visible in
    [models.cc], and no statement below depends on it. *)

Module Double.
Import PrimFloat.
#[local] Open Scope float_scope.

(** [a < b] on doubles: false when either side is NaN. *)
Definition flt (a b : float) : bool := a <? b.

(** [std::min(a, b)] is [(b < a) ? b : a]. *)
Definition std_min (a b : float) : float := if flt b a then b else a.

(** The conversion of an [int] or of a size to [double] (exact for the
    values of a 32-bit [int]). *)
Definition double_of_int (n : Z) : float :=
  if (n <? 0)%Z then - of_uint63 (Uint63.of_Z (- n)) else of_uint63 (Uint63.of_Z n).

(** Vectors *)
Definition coeff (v : list float) (i : nat) : float := nth i v 0.
Definition vec_sized (n : nat) : list float := repeat 0 n.
Definition vsum (v : list float) : float := fold_left add v 0.
Definition mean (v : list float) : float :=
  vsum v / double_of_int (Z.of_nat (length v)).
Definition arr_sub_scalar (a : list float) (c : float) : list float :=
  map (fun x => x - c) a.
Definition arr_div_scalar (a : list float) (c : float) : list float :=
  map (fun x => x / c) a.
Definition arr_scale (c : float) (a : list float) : list float :=
  map (fun x => c * x) a.
Definition arr_sub (a b : list float) : list float := zip_with sub a b.

(** Matrices *)
Record mat : Type := Mat { rows : nat; cols : nat; mcoeff : nat -> nat -> float }.

Definition sum_upto (n : nat) (f : nat -> float) : float :=
  fold_left (fun acc i => acc + f i) (seq 0 n) 0.

Definition transpose (a : mat) : mat :=
  {| rows := cols a; cols := rows a; mcoeff := fun i j => mcoeff a j i |}.

Definition asDiagonal (g : list float) : mat :=
  {| rows := length g; cols := length g;
     mcoeff := fun i j => if Nat.eqb i j then coeff g i else 0 |}.

Definition Identity (r c : nat) : mat :=
  {| rows := r; cols := c; mcoeff := fun i j => if Nat.eqb i j then 1 else 0 |}.

Definition mmul (a b : mat) : mat :=
  {| rows := rows a; cols := cols b;
     mcoeff := fun i j => sum_upto (cols a) (fun l => mcoeff a i l * mcoeff b l j) |}.

Definition msub (a b : mat) : mat :=
  {| rows := rows a; cols := cols a;
     mcoeff := fun i j => mcoeff a i j - mcoeff b i j |}.

Definition mrow (a : mat) (i : nat) : list float := map (mcoeff a i) (seq 0 (cols a)).

Definition diagonal (a : mat) : list float :=
  map (fun i => mcoeff a i i) (seq 0 (Nat.min (rows a) (cols a))).

Definition mat_sized (r c : nat) : mat :=
  {| rows := r; cols := c; mcoeff := fun _ _ => 0 |}.

Definition set_row (a : mat) (i : nat) (r : list float) : mat :=
  {| rows := rows a; cols := cols a;
     mcoeff := fun i' j => if Nat.eqb i' i then coeff r j else mcoeff a i' j |}.

Definition mat_of_rows (l : list (list float)) : mat :=
  {| rows := length l; cols := length (nth 0%nat l []);
     mcoeff := fun i j => nth j (nth i l []) 0 |}.

(** [clampPos(vec & x)]: in place, [x(i) = std::min(x(i), 0.0)]. *)
Definition clampPos (x : list float) : list float :=
  for_upto (length x) (fun i x => <[i := std_min (coeff x i) 0]> x) x.

(** [estimate_c_direct] *)
Definition estimate_c_direct (x y : mat) (g : list float) (xtgxi : mat) : mat :=
  mmul (mmul (mmul xtgxi (transpose x)) (asDiagonal g)) y.

Definition xtgx_of (x : mat) (g : list float) : mat :=
  mmul (mmul (transpose x) (asDiagonal g)) x.

(** The members of [GoertlerModel], with matrices of doubles. *)
Record GoertlerModel : Type := {
  m_ngenes : Z;
  m_ncells : Z;
  m_nsamples : Z;
  m_x : mat;
  m_y : mat;
  m_c : mat;
  m_threshfn : ThresholdFunctions;
  m_normfn : NormFunctions;
  m_subspfn : SubspaceFunctions
}.

Section Model.

(** Eigen's Cholesky solve and the statistics primitives of [utils.hpp],
    as in the exact reading: parameters. *)
Variable llt_solve : mat -> mat -> mat.
Variable stat_cov : list float -> list float -> float.
Variable stat_std : list float -> float.

(** [invxtgx] *)
Definition invxtgx (x : mat) (g : list float) : mat :=
  let xtgx := xtgx_of x g in
  let xi := llt_solve xtgx (Identity (cols x) (cols x)) in
  xi.

(** The row assigned to [A.row(icell)] in [grad_explicit_inverse]. *)
Definition sensitivity_row (self : GoertlerModel) (c_hat : mat) (icell : nat)
  : list float :=
  let std_c_hat := stat_std (mrow c_hat icell) in
  let std_c := stat_std (mrow (m_c self) icell) in
  let mean_c_hat := mean (mrow c_hat icell) in
  let mean_c := mean (mrow (m_c self) icell) in
  arr_div_scalar
    (arr_sub
       (arr_scale
          (stat_cov (mrow (m_c self) icell) (mrow c_hat icell)
             / (double_of_int (m_nsamples self) * std_c_hat * std_c_hat))
          (arr_sub_scalar (mrow c_hat icell) mean_c_hat))
       (arr_div_scalar (arr_sub_scalar (mrow (m_c self) icell) mean_c)
          (double_of_int (m_nsamples self))))
    (std_c * std_c_hat).

(** The matrix [tmp] of [grad_explicit_inverse]. *)
Definition grad_tmp (self : GoertlerModel) (g : list float) (xtgxi A : mat) : mat :=
  mmul
    (mmul
       (mmul
          (msub (m_y self)
             (mmul (mmul (mmul (mmul (m_x self) xtgxi) (transpose (m_x self)))
                      (asDiagonal g))
                (m_y self)))
          (transpose A))
       xtgxi)
    (transpose (m_x self)).

(** The matrix [A] of [grad_explicit_inverse]. *)
Definition sensitivity (self : GoertlerModel) (c_hat : mat) : mat :=
  let A := mat_sized (Z.to_nat (m_ncells self)) (Z.to_nat (m_nsamples self)) in
  for_upto (Z.to_nat (m_ncells self))
    (fun icell A => set_row A icell (sensitivity_row self c_hat icell)) A.

(** [GoertlerModel::grad_explicit_inverse(gr, g, xtgxi)] *)
Definition grad_explicit_inverse (self : GoertlerModel) (gr g : list float)
  (xtgxi : mat) : outcome (list float) :=
  assert (Z.of_nat (length g) =? m_ngenes self)%Z ;;
  let gr :=
    if negb (Z.of_nat (length gr) =? m_ngenes self)%Z
    then vec_sized (Z.to_nat (m_ngenes self)) else gr in
  let c_hat := estimate_c_direct (m_x self) (m_y self) g xtgxi in
  assert (Z.of_nat (rows c_hat) =? m_ncells self)%Z ;;
  assert (Z.of_nat (cols c_hat) =? m_nsamples self)%Z ;;
  let A := sensitivity self c_hat in
  let tmp := grad_tmp self g xtgxi A in
  let gr := diagonal tmp in
  let gr := clampPos gr in
  Ret gr.

(** [GoertlerModel::grad(gr, param)] *)
Definition grad (self : GoertlerModel) (gr param : list float) : outcome (list float) :=
  let xtgxi := invxtgx (m_x self) param in
  grad_explicit_inverse self gr param xtgxi.

End Model.

(** A solver that is exact on diagonal systems, standing for [llt_solve]
    on concrete matrices, as in the exact reading. *)
Definition solve_diagonal (A B : mat) : mat :=
  {| rows := cols A; cols := cols B;
     mcoeff := fun i j => mcoeff B i j / mcoeff A i i |}.

(** Modelled from the spec: the statistics primitives of [utils.hpp] are
    not among the sources; the spec names them covariance and standard
    deviation over numeric sequences.  They are taken with the population
    normalisation, as in the exact reading. *)
Definition pop_cov (a b : list float) : float :=
  mean (zip_with mul (arr_sub_scalar a (mean a)) (arr_sub_scalar b (mean b))).

Definition pop_std (a : list float) : float := sqrt (pop_cov a a).

(** Two genes, two cell types, two samples, identity design, [Y = C]; the
    first row of the reference matrix is constant. *)
Definition constant_reference_row : GoertlerModel :=
  {| m_ngenes := 2; m_ncells := 2; m_nsamples := 2;
     m_x := mat_of_rows [[1; 0]; [0; 1]];
     m_y := mat_of_rows [[1; 1]; [0; 1]];
     m_c := mat_of_rows [[1; 1]; [0; 1]];
     m_threshfn := SOFTMAX; m_normfn := IDENTITY; m_subspfn := POSITIVE |}.

(** The same with a reference matrix whose rows both vary. *)
Definition varying_reference_rows : GoertlerModel :=
  {| m_ngenes := 2; m_ncells := 2; m_nsamples := 2;
     m_x := mat_of_rows [[1; 0]; [0; 1]];
     m_y := mat_of_rows [[0; 1]; [1; 0]];
     m_c := mat_of_rows [[0; 1]; [1; 0]];
     m_threshfn := SOFTMAX; m_normfn := IDENTITY; m_subspfn := POSITIVE |}.

End Double.

(* ================================================================== *)
(** ** Vocabulary of the statements *)

(** The sign of a real number, as the spec's [sign(x)] reads it. *)
Definition spec_sign (x : R) : R :=
  if Rlt_dec 0 x then 1 else if Rlt_dec x 0 then -1 else 0.

(** Soft thresholding of one number by a non-negative amount, written by
    cases: what is above [lambda] moves down by [lambda], what is below
    [-lambda] moves up by [lambda], the rest becomes zero. *)
Definition shrink (lambda x : R) : R :=
  if Rlt_dec lambda x then x - lambda
  else if Rlt_dec x (- lambda) then x + lambda
  else 0.

(** [sigma] permutes the indices below [k]. *)
Definition permutation_of (k : nat) (sigma : nat -> nat) : Prop :=
  (forall i, (i < k)%nat -> (sigma i < k)%nat)
  /\ (forall i j, (i < k)%nat -> (j < k)%nat -> sigma i = sigma j -> i = j).

(** Kronecker's delta, the coefficient of [Identity]. *)
Definition delta (i j : nat) : R := if Nat.eqb i j then 1 else 0.

(** The quadratic form [v^T A v]. *)
Definition quad_form (A : mat) (v : nat -> R) : R :=
  sum_upto (rows A) (fun i => sum_upto (cols A) (fun j => v i * mcoeff A i j * v j)).

(** [A] is symmetric positive definite. *)
Definition SPD (A : mat) : Prop :=
  rows A = cols A
  /\ (forall i j, (i < rows A)%nat -> (j < rows A)%nat -> mcoeff A i j = mcoeff A j i)
  /\ (forall v : nat -> R, (exists i, (i < rows A)%nat /\ v i <> 0) -> 0 < quad_form A v).

(** [A] and [B] have the same number of columns and the same coefficients:
    every product reads them alike. *)
Definition same_coefficients (A B : mat) : Prop :=
  cols A = cols B /\ forall i j, mcoeff A i j = mcoeff B i j.

(** [Z] has the shape of a solution of [A * Z = B] and is one. *)
Definition solves (A Z B : mat) : Prop :=
  rows Z = cols A /\ cols Z = cols B
  /\ (forall i j, (i < rows A)%nat -> (j < cols B)%nat ->
        mcoeff (mmul A Z) i j = mcoeff B i j).

(** Eigen's [solve] returns a matrix of [A.cols()] rows and [B.cols()]
    columns. *)
Definition solver_shape (llt_solve : mat -> mat -> mat) : Prop :=
  forall A B, rows (llt_solve A B) = cols A /\ cols (llt_solve A B) = cols B.

(** The [int] members hold the dimensions of the stored matrices, which is
    what [models.cc] relies on when it asserts and loops. *)
Definition sizes_initialised (self : GoertlerModel) : Prop :=
  m_ngenes self = Z.of_nat (rows (m_x self))
  /\ m_ncells self = Z.of_nat (cols (m_x self))
  /\ m_nsamples self = Z.of_nat (cols (m_y self)).

(** No division of [sensitivity_row] is a division by zero: there is a
    sample, and for every cell type the standard deviations of the row of
    the estimate and of the row of the reference matrix are not zero. *)
Definition divisors_nonzero (stat_std : list R -> R) (self : GoertlerModel)
  (c_hat : mat) : Prop :=
  m_nsamples self <> 0%Z
  /\ forall icell, (icell < Z.to_nat (m_ncells self))%nat ->
       stat_std (mrow c_hat icell) <> 0 /\ stat_std (mrow (m_c self) icell) <> 0.

(** [Ai] is the inverse of the square matrix [A]. *)
Definition inverse_of (A Ai : mat) : Prop :=
  rows Ai = cols A /\ cols Ai = rows A
  /\ (forall i j, (i < rows A)%nat -> (j < rows A)%nat ->
        mcoeff (mmul A Ai) i j = delta i j /\ mcoeff (mmul Ai A) i j = delta i j).

(** What Eigen's Cholesky solve guarantees, in exact arithmetic, for the
    one system [A * Z = Identity]: if [A] is symmetric positive definite,
    the returned matrix is the solution. *)
Definition llt_exact_on (llt_solve : mat -> mat -> mat) (A : mat) : Prop :=
  SPD A ->
  solves A (llt_solve A (Identity (cols A) (cols A))) (Identity (cols A) (cols A)).

(** Column [j] of the result is column [sigma j] of [a]; row [i] of the
    result is row [sigma i] of [a]. *)
Definition permute_cols (sigma : nat -> nat) (a : mat) : mat :=
  {| rows := rows a; cols := cols a; mcoeff := fun i j => mcoeff a i (sigma j) |}.
Definition permute_rows (sigma : nat -> nat) (a : mat) : mat :=
  {| rows := rows a; cols := cols a; mcoeff := fun i j => mcoeff a (sigma i) j |}.

(** The model [self] with [x] and [c] in place of its design and
    reference matrices. *)
Definition with_matrices (self : GoertlerModel) (x c : mat) : GoertlerModel :=
  {| m_ngenes := m_ngenes self; m_ncells := m_ncells self;
     m_nsamples := m_nsamples self;
     m_x := x; m_y := m_y self; m_c := c;
     m_threshfn := m_threshfn self; m_normfn := m_normfn self;
     m_subspfn := m_subspfn self |}.

(** The cell types are the columns of [X] and the rows of [C]: relabelling
    them by [sigma] permutes those. *)
Definition relabel_cells (sigma : nat -> nat) (self : GoertlerModel) : GoertlerModel :=
  with_matrices self (permute_cols sigma (m_x self)) (permute_rows sigma (m_c self)).

(** The permutation the spec words: the rows of [X] and the rows of [C],
    by the same [sigma]. *)
Definition permute_rows_of_X_and_C (sigma : nat -> nat) (self : GoertlerModel)
  : GoertlerModel :=
  with_matrices self (permute_rows sigma (m_x self)) (permute_rows sigma (m_c self)).

(* ================================================================== *)
(** ** Instances of the model's parameters and concrete models *)

(** A solver that is exact on diagonal systems: the solution of
    [A * Z = B] for a diagonal [A] without zero on its diagonal.  It stands
    for [llt_solve] where a statement is run on concrete matrices. *)
Definition solve_diagonal (A B : mat) : mat :=
  {| rows := cols A; cols := cols B;
     mcoeff := fun i j => mcoeff B i j / mcoeff A i i |}.

(** Modelled from the spec: the statistics primitives of [utils.hpp] are
    not among the sources; the spec names them mean, standard deviation,
    covariance and Pearson correlation over numeric sequences.  They are
    taken with the population normalisation (the Pearson correlation is the
    same under either normalisation) and instantiate the model's parameters
    on concrete matrices. *)
Definition pop_cov (a b : list R) : R :=
  mean (zip_with Rmult (arr_sub_scalar a (mean a)) (arr_sub_scalar b (mean b))).
Definition pop_std (a : list R) : R := sqrt (pop_cov a a).
Definition pearson_cor (a b : list R) : R := pop_cov a b / (pop_std a * pop_std b).

(** A model object configured with the variants that [models.cc]
    implements, used to run the operators on concrete vectors. *)
Definition configured (tf : ThresholdFunctions) (nf : NormFunctions)
  (sf : SubspaceFunctions) : GoertlerModel :=
  {| m_ngenes := 2; m_ncells := 2; m_nsamples := 2;
     m_x := mat_of_rows [[1; 0]; [0; 1]];
     m_y := mat_of_rows [[0; 1]; [1; 0]];
     m_c := mat_of_rows [[0; 1]; [1; 0]];
     m_threshfn := tf; m_normfn := nf; m_subspfn := sf |}.

(** Object storage whose [m_ngenes] bytes hold [n] before construction. *)
Definition storage_holding (n : Z) : GoertlerModel :=
  {| m_ngenes := n; m_ncells := 0; m_nsamples := 0;
     m_x := mat_sized 0 0; m_y := mat_sized 0 0; m_c := mat_sized 0 0;
     m_threshfn := SOFTMAX; m_normfn := IDENTITY; m_subspfn := POSITIVE |}.

(** Three genes, three cell types, two samples: the identity design
    matrix, and [C = Y] so that the estimate matches the reference. *)
Definition three_cells : GoertlerModel :=
  {| m_ngenes := 3; m_ncells := 3; m_nsamples := 2;
     m_x := mat_of_rows [[1; 0; 0]; [0; 1; 0]; [0; 0; 1]];
     m_y := mat_of_rows [[0; 1]; [1; 0]; [0; 1]];
     m_c := mat_of_rows [[0; 1]; [1; 0]; [0; 1]];
     m_threshfn := SOFTMAX; m_normfn := IDENTITY; m_subspfn := POSITIVE |}.

(** A model whose response is explained exactly by its design and
    reference matrices: [Y = X * C]. *)
Definition exact_model : GoertlerModel :=
  {| m_ngenes := 2; m_ncells := 2; m_nsamples := 2;
     m_x := mat_of_rows [[1; 0]; [0; 1]];
     m_y := mmul (mat_of_rows [[1; 0]; [0; 1]]) (mat_of_rows [[0; 1]; [1; 0]]);
     m_c := mat_of_rows [[0; 1]; [1; 0]];
     m_threshfn := SOFTMAX; m_normfn := IDENTITY; m_subspfn := POSITIVE |}.

(** The cyclic permutation 0 -> 1 -> 2 -> 0, and the transposition of 0
    and 1. *)
Definition cycle3 (i : nat) : nat :=
  match i with
  | 0 => 1
  | 1 => 2
  | 2 => 0
  | _ => i
  end%nat.
Definition swap2 (i : nat) : nat :=
  match i with
  | 0 => 1
  | 1 => 0
  | _ => i
  end%nat.

(* ================================================================== *)
(** ** Loops that write every coefficient *)

Section Loops.

Lemma flt_true (a b : R) : a < b -> flt a b = true.
Proof. intros H. unfold flt. destruct (Rlt_dec a b); [reflexivity | contradiction]. Qed.

Lemma flt_false (a b : R) : b <= a -> flt a b = false.
Proof. intros H. unfold flt. destruct (Rlt_dec a b); [lra | reflexivity]. Qed.

Lemma coeff_middle (p s : list R) (a : R) : coeff (p ++ a :: s) (length p) = a.
Proof. unfold coeff. apply nth_middle. Qed.

(** A loop over the positions [length p ..] that replaces each coefficient
    by a function of its old value leaves the prefix alone and maps the
    rest. *)
Lemma update_each_from (c : R -> R) (s p : list R) :
  fold_left (fun x i => <[i := c (coeff x i)]> x) (seq (length p) (length s)) (p ++ s)
  = p ++ map c s.
Proof.
  revert p. induction s as [|a s IH]; intros p; [reflexivity|].
  cbn [length seq fold_left map].
  rewrite coeff_middle.
  rewrite insert_app_r_alt by lia. rewrite Nat.sub_diag. cbn [insert list_insert].
  change (p ++ c a :: s) with (p ++ [c a] ++ s). rewrite app_assoc.
  replace (S (length p)) with (length (p ++ [c a])).
  2:{ rewrite length_app. cbn. lia. }
  rewrite IH. rewrite <- app_assoc. reflexivity.
Qed.

Lemma update_each_map (c : R -> R) (x : list R) :
  for_upto (length x) (fun i x => <[i := c (coeff x i)]> x) x = map c x.
Proof. exact (update_each_from c x []). Qed.

(** A loop that writes [f i] at every position [i] of a vector of the right
    size produces [f 0 .. f (n-1)], whatever the vector held before. *)
Lemma write_all_from (f : nat -> R) (r p : list R) :
  fold_left (fun res i => <[i := f i]> res) (seq (length p) (length r)) (p ++ r)
  = p ++ map f (seq (length p) (length r)).
Proof.
  revert p. induction r as [|a r IH]; intros p; [reflexivity|].
  cbn [length seq fold_left map].
  rewrite insert_app_r_alt by lia. rewrite Nat.sub_diag. cbn [insert list_insert].
  change (p ++ f (length p) :: r) with (p ++ [f (length p)] ++ r). rewrite app_assoc.
  replace (S (length p)) with (length (p ++ [f (length p)])).
  2:{ rewrite length_app. cbn. lia. }
  rewrite IH. rewrite <- app_assoc. reflexivity.
Qed.

Lemma write_all_map (f : nat -> R) (n : nat) (res : list R) :
  length res = n ->
  for_upto n (fun i res => <[i := f i]> res) res = map f (seq 0 n).
Proof. intros <-. exact (write_all_from f res []). Qed.

Lemma map_coeff_seq (F : R -> R) (v : list R) :
  map (fun i => F (coeff v i)) (seq 0 (length v)) = map F v.
Proof.
  unfold coeff. induction v as [|a v IH]; [reflexivity|].
  cbn [length seq map nth]. f_equal.
  rewrite <- seq_shift, map_map. exact IH.
Qed.

Lemma softmax_map (v : list R) (softfactor : R) :
  softmax v softfactor
  = map (fun x => IZR (sgn x) * std_max (Rabs x - softfactor) 0) v.
Proof.
  unfold softmax, vec_sized.
  rewrite (write_all_map
             (fun i => IZR (sgn (coeff v i)) * std_max (Rabs (coeff v i) - softfactor) 0)).
  - apply (map_coeff_seq (fun x => IZR (sgn x) * std_max (Rabs x - softfactor) 0)).
  - apply repeat_length.
Qed.

Lemma clampPos_map (x : list R) : clampPos x = map (fun e => std_min e 0) x.
Proof. apply (update_each_map (fun e => std_min e 0)). Qed.

Lemma clampNeg_map (x : list R) : clampNeg x = map (fun e => std_max e 0) x.
Proof. apply (update_each_map (fun e => std_max e 0)). Qed.

Lemma std_min_0_nonpos (e : R) : std_min e 0 <= 0.
Proof. unfold std_min, flt. destruct (Rlt_dec 0 e); lra. Qed.

Lemma std_max_0_nonneg (e : R) : 0 <= std_max e 0.
Proof. unfold std_max, flt. destruct (Rlt_dec e 0); lra. Qed.

Lemma std_max_Rmax (a b : R) : std_max a b = Rmax a b.
Proof.
  unfold std_max, flt, Rmax.
  destruct (Rlt_dec a b), (Rle_dec a b); lra.
Qed.

Lemma std_min_Rmin (a b : R) : std_min a b = Rmin a b.
Proof.
  unfold std_min, flt, Rmin.
  destruct (Rlt_dec b a), (Rle_dec a b); lra.
Qed.

End Loops.

(* ================================================================== *)
(** ** The projection operators: threshold, norm and subspace constraint *)

Section Projections.

Lemma lookup_map {A B : Type} (f : A -> B) (l : list A) (i : nat) :
  map f l !! i = f <$> (l !! i).
Proof.
  revert i. induction l as [|a l IH]; intros [|i]; cbn; try reflexivity. apply IH.
Qed.

Lemma sgn_spec_sign (x : R) : IZR (sgn x) = spec_sign x.
Proof.
  unfold sgn, spec_sign, flt.
  destruct (Rlt_dec 0 x), (Rlt_dec x 0); rewrite minus_IZR; cbn; lra.
Qed.

Lemma soft_zero (x lambda : R) :
  Rabs x <= lambda -> IZR (sgn x) * std_max (Rabs x - lambda) 0 = 0.
Proof.
  intros H. unfold std_max, flt.
  destruct (Rlt_dec (Rabs x - lambda) 0) as [Hlt|Hge].
  - apply Rmult_0_r.
  - replace (Rabs x - lambda) with 0 by lra. apply Rmult_0_r.
Qed.

Lemma soft_identity (x : R) : IZR (sgn x) * std_max (Rabs x - 0) 0 = x.
Proof.
  unfold std_max. rewrite flt_false by (pose proof (Rabs_pos x); lra).
  unfold sgn, flt.
  destruct (Rlt_dec 0 x) as [Hp|Hp], (Rlt_dec x 0) as [Hn|Hn];
    rewrite minus_IZR; cbn; try lra.
  - rewrite Rabs_right by lra. lra.
  - rewrite Rabs_left by lra. lra.
Qed.

(** C3.  With the SOFTMAX variant, [threshold(v, lambda)] returns a vector
    of the length of [v] whose entry [i] is
    [sign(v_i) * max(|v_i| - lambda, 0)]; every entry with
    [|v_i| <= lambda] becomes zero, and [threshold(v, 0)] returns [v]. *)
Theorem threshold_softmax_spec (self : GoertlerModel) (v : list R) (lambda : R) :
  m_threshfn self = SOFTMAX ->
  exists r : list R,
    threshold self v lambda = Ret r
    /\ length r = length v
    /\ (forall i x, v !! i = Some x ->
          r !! i = Some (spec_sign x * Rmax (Rabs x - lambda) 0))
    /\ (forall i x, v !! i = Some x -> Rabs x <= lambda -> r !! i = Some 0)
    /\ threshold self v 0 = Ret v.
Proof.
  intros Hcfg. unfold threshold. rewrite Hcfg.
  rewrite !decide_True by reflexivity.
  exists (softmax v lambda). rewrite !softmax_map.
  split; [reflexivity|]. split; [apply length_map|].
  split; [|split].
  - intros i x Hx. rewrite lookup_map, Hx. cbn.
    rewrite sgn_spec_sign, std_max_Rmax. reflexivity.
  - intros i x Hx Hle. rewrite lookup_map, Hx. cbn.
    rewrite soft_zero by assumption. reflexivity.
  - f_equal. rewrite <- (map_id v) at 2. apply map_ext. intros x. apply soft_identity.
Qed.

Lemma threshold_softmax_spec_witness :
  m_threshfn (configured SOFTMAX IDENTITY POSITIVE) = SOFTMAX
  /\ exists r : list R,
       threshold (configured SOFTMAX IDENTITY POSITIVE) [3; -1; 1 / 2] 1 = Ret r
       /\ length r = 3%nat.
Proof.
  split; [reflexivity|].
  destruct (threshold_softmax_spec (configured SOFTMAX IDENTITY POSITIVE)
              [3; -1; 1 / 2] 1 eq_refl) as (r & Hr & Hlen & _).
  exists r. split; [exact Hr | exact Hlen].
Defined.

(** C7.  With the POSITIVE variant, [subspace_constraint(v)] returns a
    vector of the length of [v] without negative entries: a negative entry
    becomes zero, any other entry is kept; a vector without negative
    entries is returned unchanged. *)
Theorem subspace_constraint_positive (self : GoertlerModel) (v : list R) :
  m_subspfn self = POSITIVE ->
  exists r : list R,
    subspace_constraint self v = Ret r
    /\ length r = length v
    /\ Forall (fun e => 0 <= e) r
    /\ (forall i x, v !! i = Some x ->
          r !! i = Some (if Rlt_dec x 0 then 0 else x))
    /\ (Forall (fun e => 0 <= e) v -> r = v).
Proof.
  intros Hcfg. unfold subspace_constraint. rewrite Hcfg.
  rewrite decide_True by reflexivity.
  exists (clampNeg v). rewrite clampNeg_map.
  split; [reflexivity|]. split; [apply length_map|].
  split; [|split].
  - apply List.Forall_forall. intros e He. apply in_map_iff in He as (x & <- & _).
    apply std_max_0_nonneg.
  - intros i x Hx. rewrite lookup_map, Hx. cbn. unfold std_max, flt.
    destruct (Rlt_dec x 0); reflexivity.
  - intros Hpos. rewrite <- (map_id v) at 2. apply map_ext_in. intros x Hx.
    unfold std_max. rewrite flt_false; [reflexivity|].
    rewrite List.Forall_forall in Hpos. apply Hpos, Hx.
Qed.

Lemma subspace_constraint_positive_witness :
  m_subspfn (configured SOFTMAX IDENTITY POSITIVE) = POSITIVE
  /\ exists r : list R,
       subspace_constraint (configured SOFTMAX IDENTITY POSITIVE) [2; -3; 0] = Ret r
       /\ Forall (fun e => 0 <= e) r.
Proof.
  split; [reflexivity|].
  destruct (subspace_constraint_positive (configured SOFTMAX IDENTITY POSITIVE)
              [2; -3; 0] eq_refl) as (r & Hr & _ & Hpos & _).
  exists r. split; [exact Hr | exact Hpos].
Defined.

(** C8.  Each operator throws [std::runtime_error] ("unimplemented ...")
    for every input when the configured variant is not one it implements:
    SOFTMAX for the threshold, IDENTITY or NORM2 for the norm constraint,
    POSITIVE for the subspace constraint. *)
Theorem unimplemented_variant_throws (self : GoertlerModel) (v : list R) (lambda : R) :
  (m_threshfn self <> SOFTMAX ->
   threshold self v lambda = Throw "unimplemented threshold function.")
  /\ (m_normfn self <> IDENTITY -> m_normfn self <> NORM2 ->
      norm_constraint self v = Throw "unimplemented norm function. ")
  /\ (m_subspfn self <> POSITIVE ->
      subspace_constraint self v = Throw "unimplemented subspace constraint.").
Proof.
  unfold threshold, norm_constraint, subspace_constraint.
  split; [|split].
  - intros H. rewrite decide_False by assumption. reflexivity.
  - intros H1 H2. rewrite !decide_False by assumption. reflexivity.
  - intros H. rewrite decide_False by assumption. reflexivity.
Qed.

Lemma unimplemented_variant_throws_witness :
  threshold (configured (ThresholdFunctions_other 1) (NormFunctions_other 2)
               (SubspaceFunctions_other 1)) [1; -2] 1
    = Throw "unimplemented threshold function."
  /\ norm_constraint (configured (ThresholdFunctions_other 1) (NormFunctions_other 2)
               (SubspaceFunctions_other 1)) [1; -2]
    = Throw "unimplemented norm function. "
  /\ subspace_constraint (configured (ThresholdFunctions_other 1) (NormFunctions_other 2)
               (SubspaceFunctions_other 1)) [1; -2]
    = Throw "unimplemented subspace constraint.".
Proof.
  destruct (unimplemented_variant_throws
              (configured (ThresholdFunctions_other 1) (NormFunctions_other 2)
                 (SubspaceFunctions_other 1)) [1; -2] 1) as (Ht & Hn & Hs).
  split; [|split].
  - apply Ht. discriminate.
  - apply Hn; discriminate.
  - apply Hs. discriminate.
Defined.

End Projections.

(* ================================================================== *)
(** ** The NORM2 variant of the norm constraint *)

Section Norm2.


Lemma sum_squares_nonneg (v : list R) : 0 <= vsum (map (fun x => x * x) v).
Proof.
  induction v as [|a v IH]; cbn.
  - lra.
  - unfold vsum in IH. nra.
Qed.

Lemma sum_squares_pos (v : list R) :
  Exists (fun x => x <> 0) v -> 0 < vsum (map (fun x => x * x) v).
Proof.
  induction 1 as [a v Ha | a v _ IH]; cbn.
  - pose proof (sum_squares_nonneg v) as Hv. unfold vsum in Hv. nra.
  - unfold vsum in IH. nra.
Qed.

Lemma norm_pos (v : list R) : Exists (fun x => x <> 0) v -> 0 < norm v.
Proof. intros H. unfold norm. apply sqrt_lt_R0, sum_squares_pos, H. Qed.





End Norm2.

(* ================================================================== *)
(** ** The caller's vector across [subspace_constraint] *)

Section Frame.

Lemma update_object_loop (c : R -> R) (x : nat) (idxs : list nat) :
  forall (xv : list R) (h : gmap nat (list R)),
    h !! x = Some xv ->
    fold_left
      (fun h i =>
         match h !! x with
         | Some xv => <[x := <[i := c (coeff xv i)]> xv]> h
         | None => h
         end) idxs h
    = <[x := fold_left (fun xv i => <[i := c (coeff xv i)]> xv) idxs xv]> h.
Proof.
  induction idxs as [|i idxs IH]; intros xv h Hx; cbn [fold_left].
  - symmetry. apply insert_id, Hx.
  - rewrite Hx.
    rewrite (IH (<[i := c (coeff xv i)]> xv)) by apply lookup_insert_eq.
    apply insert_insert_eq.
Qed.

Lemma clampNeg_at_object (x : nat) (xv : list R) (h : gmap nat (list R)) :
  h !! x = Some xv -> clampNeg_at x h = <[x := clampNeg xv]> h.
Proof.
  intros Hx. unfold clampNeg_at, clampNeg, for_upto. rewrite Hx. cbn [default].
  apply (update_object_loop (fun e => std_max e 0)), Hx.
Qed.

(** C10.  With the POSITIVE variant, [subspace_constraint(v)] builds its
    result in a new object [res], distinct from [v]; after the call [v]
    holds exactly the entries it held before, every other object of the
    caller is untouched, and [res] holds the clamped copy. *)
Theorem subspace_constraint_leaves_argument
  (self : GoertlerModel) (v : nat) (h : gmap nat (list R)) (x : list R) :
  m_subspfn self = POSITIVE ->
  h !! v = Some x ->
  exists (res : nat) (h' : gmap nat (list R)),
    subspace_constraint_at self v h = Ret (res, h')
    /\ res <> v
    /\ h' !! v = Some x
    /\ h' !! res = Some (clampNeg x)
    /\ (forall l, l <> res -> h' !! l = h !! l)
    /\ subspace_constraint self x = Ret (clampNeg x).
Proof.
  intros Hcfg Hv. unfold subspace_constraint_at, subspace_constraint.
  rewrite Hcfg, !decide_True by reflexivity. rewrite Hv. cbn [default].
  set (res := fresh (dom h)).
  assert (Hfresh : res ∉ dom h) by apply is_fresh.
  assert (Hne : res <> v).
  { intros ->. apply Hfresh. apply (elem_of_dom_2 _ _ _ Hv). }
  rewrite (clampNeg_at_object res x) by apply lookup_insert_eq.
  rewrite insert_insert_eq.
  exists res, (<[res := clampNeg x]> h).
  split; [reflexivity|]. split; [exact Hne|].
  split; [rewrite lookup_insert_ne by exact Hne; exact Hv|].
  split; [apply lookup_insert_eq|].
  split; [|reflexivity].
  intros l Hl. apply lookup_insert_ne. congruence.
Qed.

Lemma subspace_constraint_leaves_argument_witness :
  exists (res : nat) (h' : gmap nat (list R)),
    subspace_constraint_at (configured SOFTMAX IDENTITY POSITIVE) 0%nat
      (<[0%nat := [1; -2]]> ∅) = Ret (res, h')
    /\ res <> 0%nat
    /\ h' !! 0%nat = Some [1; -2].
Proof.
  destruct (subspace_constraint_leaves_argument
              (configured SOFTMAX IDENTITY POSITIVE) 0%nat
              (<[0%nat := [1; -2]]> ∅) [1; -2] eq_refl (lookup_insert_eq _ _ _))
    as (res & h' & Hr & Hne & Hv & _).
  exists res, h'. split; [exact Hr|]. split; [exact Hne | exact Hv].
Defined.

End Frame.

(* ================================================================== *)
(** ** The constructor and [dim()] *)

Section Constructor.

(** The constructor of [models.hpp] never assigns [m_ngenes]: [dim()] of a
    constructed model is the value the storage held, whatever [x] is. *)
Lemma dim_after_ctor (storage : GoertlerModel) (x y c : mat) :
  dim (GoertlerModel_ctor storage x y c) = (m_ngenes storage mod 2 ^ 64)%Z.
Proof. reflexivity. Qed.

(** C9 at a concrete input: a model constructed from a design matrix with
    one row (one gene) over storage that held 7 reports [dim() = 7]. *)
Lemma dim_is_not_gene_count :
  rows (mat_of_rows [[1; 2]]) = 1%nat
  /\ dim (GoertlerModel_ctor (storage_holding 7) (mat_of_rows [[1; 2]])
            (mat_of_rows [[5]]) (mat_of_rows [[1]; [1]])) = 7%Z.
Proof. split; reflexivity. Qed.

End Constructor.

(* ================================================================== *)
(** ** The gradient and the unchecked solve *)

Section Gradient.

Variable llt_solve : mat -> mat -> mat.
Variable stat_cor : list R -> list R -> R.
Variable stat_cov : list R -> list R -> R.
Variable stat_std : list R -> R.

Lemma assert_true_then {A : Type} (b : bool) (k : outcome A) :
  b = true -> (assert b ;; k) = k.
Proof. intros ->. reflexivity. Qed.

Lemma assert_then_Ret {A : Type} (b : bool) (k : outcome A) (a : A) :
  (assert b ;; k) = Ret a -> b = true /\ k = Ret a.
Proof. destruct b; cbn; [auto | discriminate]. Qed.

Lemma grad_explicit_inverse_Ret (self : GoertlerModel) (gr g : list R)
  (xtgxi : mat) (gr' : list R) :
  grad_explicit_inverse stat_cov stat_std self gr g xtgxi = Ret gr' ->
  gr' = clampPos
          (diagonal
             (grad_tmp self g xtgxi
                (sensitivity stat_cov stat_std self
                   (estimate_c_direct (m_x self) (m_y self) g xtgxi)))).
Proof.
  unfold grad_explicit_inverse. intros H.
  apply assert_then_Ret in H as [_ H].
  apply assert_then_Ret in H as [_ H].
  apply assert_then_Ret in H as [_ H].
  injection H as <-. reflexivity.
Qed.

Lemma grad_returns_when_asserts_hold (self : GoertlerModel) (gr g : list R) :
  let c_hat :=
    estimate_c_direct (m_x self) (m_y self) g (invxtgx llt_solve (m_x self) g) in
  Z.of_nat (length g) = m_ngenes self ->
  Z.of_nat (rows c_hat) = m_ncells self ->
  Z.of_nat (cols c_hat) = m_nsamples self ->
  exists gr' : list R, grad llt_solve stat_cov stat_std self gr g = Ret gr'.
Proof.
  intros c_hat Hg Hr Hc. unfold grad, grad_explicit_inverse.
  rewrite !assert_true_then; [eexists; reflexivity | | | ].
  - apply Z.eqb_eq. exact Hc.
  - apply Z.eqb_eq. exact Hr.
  - apply Z.eqb_eq. exact Hg.
Qed.

Lemma evaluate_returns (self : GoertlerModel) (g : list R) :
  solver_shape llt_solve ->
  sizes_initialised self ->
  Z.of_nat (length g) = m_ngenes self ->
  exists s : R, evaluate stat_cor self g (invxtgx llt_solve (m_x self) g) = Ret s.
Proof.
  intros Hshape (Hn & Hk & Hs) Hg. unfold evaluate.
  destruct (Hshape (xtgx_of (m_x self) g) (Identity (cols (m_x self)) (cols (m_x self))))
    as [Hrows Hcols].
  rewrite !assert_true_then; [eexists; reflexivity | | | | |]; apply Z.eqb_eq.
  - cbn. symmetry. exact Hs.
  - cbn. unfold invxtgx. rewrite Hrows, Hk. reflexivity.
  - unfold invxtgx. rewrite Hcols, Hk. reflexivity.
  - unfold invxtgx. rewrite Hrows, Hk. reflexivity.
  - exact Hg.
Qed.

Lemma grad_returns (self : GoertlerModel) (gr g : list R) :
  solver_shape llt_solve ->
  sizes_initialised self ->
  Z.of_nat (length g) = m_ngenes self ->
  exists gr' : list R, grad llt_solve stat_cov stat_std self gr g = Ret gr'.
Proof.
  intros Hshape (Hn & Hk & Hs) Hg.
  apply grad_returns_when_asserts_hold; [exact Hg | | cbn; auto].
  cbn. unfold invxtgx.
  destruct (Hshape (xtgx_of (m_x self) g) (Identity (cols (m_x self)) (cols (m_x self))))
    as [-> _].
  rewrite Hk. reflexivity.
Qed.

(** C4, as the code has it.  For a weight vector of the right length, be
    the weighted Gram matrix positive definite or not, [invxtgx] returns
    what the Cholesky solve produced without looking at it, and both
    [evaluate] (run on that matrix) and [grad] return a value: nothing
    reports a failed factorisation. *)
Theorem solve_failure_is_not_reported (self : GoertlerModel) (gr g : list R) :
  solver_shape llt_solve ->
  sizes_initialised self ->
  Z.of_nat (length g) = m_ngenes self ->
  invxtgx llt_solve (m_x self) g
    = llt_solve (xtgx_of (m_x self) g) (Identity (cols (m_x self)) (cols (m_x self)))
  /\ (exists s : R, evaluate stat_cor self g (invxtgx llt_solve (m_x self) g) = Ret s)
  /\ (exists gr' : list R, grad llt_solve stat_cov stat_std self gr g = Ret gr').
Proof.
  intros Hshape Hsizes Hg. split; [reflexivity|]. split.
  - apply evaluate_returns; assumption.
  - apply grad_returns; assumption.
Qed.

End Gradient.

Section GradientExamples.

Lemma solve_diagonal_shape : solver_shape solve_diagonal.
Proof. intros A B. split; reflexivity. Qed.

Lemma configured_sizes (tf : ThresholdFunctions) (nf : NormFunctions)
  (sf : SubspaceFunctions) : sizes_initialised (configured tf nf sf).
Proof. repeat split. Qed.

Lemma solve_failure_is_not_reported_witness :
  (exists s : R,
     evaluate pearson_cor (configured SOFTMAX IDENTITY POSITIVE) [1; 1]
       (invxtgx solve_diagonal (m_x (configured SOFTMAX IDENTITY POSITIVE)) [1; 1]) = Ret s)
  /\ (exists gr' : list R,
        grad solve_diagonal pop_cov pop_std (configured SOFTMAX IDENTITY POSITIVE)
          [] [1; 1] = Ret gr').
Proof.
  apply (solve_failure_is_not_reported solve_diagonal pearson_cor pop_cov pop_std
           (configured SOFTMAX IDENTITY POSITIVE) [] [1; 1]
           solve_diagonal_shape (configured_sizes _ _ _) eq_refl).
Defined.

(** C4 as the spec states it fails at [g = (-1, -1)] on the identity design
    matrix: the weighted Gram matrix is not positive definite, and yet
    [evaluate] (run on the matrix that [invxtgx] returns) and [grad] return
    a value, with any solver of Eigen's shape. *)
Lemma not_posdef_still_returns :
  ~ SPD (xtgx_of (m_x (configured SOFTMAX IDENTITY POSITIVE)) [-1; -1])
  /\ (forall (llt_solve : mat -> mat -> mat) (stat_cor : list R -> list R -> R),
        solver_shape llt_solve ->
        exists s : R,
          evaluate stat_cor (configured SOFTMAX IDENTITY POSITIVE) [-1; -1]
            (invxtgx llt_solve (m_x (configured SOFTMAX IDENTITY POSITIVE)) [-1; -1]) = Ret s)
  /\ (forall (llt_solve : mat -> mat -> mat) (stat_cov : list R -> list R -> R)
         (stat_std : list R -> R) (gr : list R),
        solver_shape llt_solve ->
        exists gr' : list R,
          grad llt_solve stat_cov stat_std (configured SOFTMAX IDENTITY POSITIVE)
            gr [-1; -1] = Ret gr').
Proof.
  split; [|split].
  - intros (_ & _ & Hpos).
    specialize (Hpos (fun i => if Nat.eqb i 0 then 1 else 0)).
    assert (H : exists i, (i < 2)%nat /\ (if Nat.eqb i 0 then 1 else 0) <> 0).
    { exists 0%nat. split; [lia | cbn; lra]. }
    apply Hpos in H. unfold quad_form, xtgx_of in H. cbn in H. lra.
  - intros llt_solve stat_cor Hshape.
    apply evaluate_returns; [exact Hshape | apply configured_sizes | reflexivity].
  - intros llt_solve stat_cov stat_std gr Hshape.
    apply grad_returns; [exact Hshape | apply configured_sizes | reflexivity].
Qed.

End GradientExamples.

(* ================================================================== *)
(** ** The clamp of the gradient in IEEE arithmetic *)

Section DoubleGradient.

Variable llt_solve : Double.mat -> Double.mat -> Double.mat.
Variable stat_cov : list PrimFloat.float -> list PrimFloat.float -> PrimFloat.float.
Variable stat_std : list PrimFloat.float -> PrimFloat.float.

Lemma double_coeff_middle (p s : list PrimFloat.float) (a : PrimFloat.float) :
  Double.coeff (p ++ a :: s) (length p) = a.
Proof. unfold Double.coeff. apply nth_middle. Qed.

Lemma double_update_each_from (c : PrimFloat.float -> PrimFloat.float)
  (s p : list PrimFloat.float) :
  fold_left (fun x i => <[i := c (Double.coeff x i)]> x)
    (seq (length p) (length s)) (p ++ s)
  = p ++ map c s.
Proof.
  revert p. induction s as [|a s IH]; intros p; [reflexivity|].
  cbn [length seq fold_left map].
  rewrite double_coeff_middle.
  rewrite insert_app_r_alt by lia. rewrite Nat.sub_diag. cbn [insert list_insert].
  change (p ++ c a :: s) with (p ++ [c a] ++ s). rewrite app_assoc.
  replace (S (length p)) with (length (p ++ [c a])).
  2:{ rewrite length_app. cbn. lia. }
  rewrite IH. rewrite <- app_assoc. reflexivity.
Qed.

Lemma double_clampPos_map (x : list PrimFloat.float) :
  Double.clampPos x = map (fun e => Double.std_min e PrimFloat.zero) x.
Proof. exact (double_update_each_from (fun e => Double.std_min e PrimFloat.zero) x []). Qed.

(** A double that is not above zero is at most zero, or it is a NaN. *)
Lemma double_not_positive (e : PrimFloat.float) :
  PrimFloat.ltb PrimFloat.zero e = false ->
  PrimFloat.leb e PrimFloat.zero = true \/ PrimFloat.is_nan e = true.
Proof.
  unfold PrimFloat.is_nan.
  rewrite FloatAxioms.ltb_spec, FloatAxioms.leb_spec, FloatAxioms.eqb_spec.
  change (FloatOps.Prim2SF PrimFloat.zero) with (SpecFloat.S754_zero false).
  destruct (FloatOps.Prim2SF e) as [s | s | | s m ex]; cbn.
  - auto.
  - destruct s; [auto | discriminate].
  - auto.
  - destruct s; [auto | discriminate].
Qed.

(** A double above zero is not a NaN. *)
Lemma double_positive_not_nan (e : PrimFloat.float) :
  PrimFloat.ltb PrimFloat.zero e = true -> PrimFloat.is_nan e = false.
Proof.
  unfold PrimFloat.is_nan.
  rewrite FloatAxioms.ltb_spec, FloatAxioms.eqb_spec.
  change (FloatOps.Prim2SF PrimFloat.zero) with (SpecFloat.S754_zero false).
  destruct (FloatOps.Prim2SF e) as [s | s | | s m ex]; cbn.
  - discriminate.
  - destruct s; [discriminate | reflexivity].
  - discriminate.
  - intros _. unfold SpecFloat.SFeqb, SpecFloat.SFcompare.
    rewrite Z.compare_refl, Pos.compare_cont_refl. destruct s; reflexivity.
Qed.

(** [std::min(e, 0.0)] is never above zero, and it is a NaN exactly when
    [e] is. *)
Lemma double_std_min_zero (e : PrimFloat.float) :
  (PrimFloat.leb (Double.std_min e PrimFloat.zero) PrimFloat.zero = true
   \/ PrimFloat.is_nan (Double.std_min e PrimFloat.zero) = true)
  /\ PrimFloat.is_nan (Double.std_min e PrimFloat.zero) = PrimFloat.is_nan e.
Proof.
  unfold Double.std_min, Double.flt.
  destruct (PrimFloat.ltb PrimFloat.zero e) eqn:Hpos.
  - split; [left; reflexivity|].
    rewrite (double_positive_not_nan e Hpos). reflexivity.
  - split; [apply double_not_positive, Hpos | reflexivity].
Qed.

Lemma double_grad_explicit_inverse_Ret (self : Double.GoertlerModel)
  (gr g : list PrimFloat.float) (xtgxi : Double.mat) (gr' : list PrimFloat.float) :
  Double.grad_explicit_inverse stat_cov stat_std self gr g xtgxi = Ret gr' ->
  gr' = Double.clampPos
          (Double.diagonal
             (Double.grad_tmp self g xtgxi
                (Double.sensitivity stat_cov stat_std self
                   (Double.estimate_c_direct (Double.m_x self) (Double.m_y self)
                      g xtgxi)))).
Proof.
  unfold Double.grad_explicit_inverse. intros H.
  apply assert_then_Ret in H as [_ H].
  apply assert_then_Ret in H as [_ H].
  apply assert_then_Ret in H as [_ H].
  injection H as <-. reflexivity.
Qed.

(** C2, as the code has it.  Whenever [grad] returns a vector, that vector
    is the diagonal of [tmp] (the raw gradient) after the one-sided clamp
    [std::min(., 0.0)]: each of its entries is at most zero or is a NaN, and
    it is a NaN exactly where the raw gradient is; and [grad] does return
    whenever its three assertions on the sizes hold. *)
Theorem grad_entries_nonpositive_or_nan (self : Double.GoertlerModel)
  (gr g : list PrimFloat.float) :
  let xtgxi := Double.invxtgx llt_solve (Double.m_x self) g in
  let c_hat :=
    Double.estimate_c_direct (Double.m_x self) (Double.m_y self) g xtgxi in
  let raw :=
    Double.diagonal
      (Double.grad_tmp self g xtgxi (Double.sensitivity stat_cov stat_std self c_hat)) in
  (forall gr' : list PrimFloat.float,
     Double.grad llt_solve stat_cov stat_std self gr g = Ret gr' ->
     gr' = map (fun e => Double.std_min e PrimFloat.zero) raw
     /\ Forall (fun e => PrimFloat.leb e PrimFloat.zero = true
                         \/ PrimFloat.is_nan e = true) gr'
     /\ Forall2 (fun e0 e => PrimFloat.is_nan e = PrimFloat.is_nan e0) raw gr')
  /\ (Z.of_nat (length g) = Double.m_ngenes self ->
      Z.of_nat (Double.rows c_hat) = Double.m_ncells self ->
      Z.of_nat (Double.cols c_hat) = Double.m_nsamples self ->
      exists gr' : list PrimFloat.float,
        Double.grad llt_solve stat_cov stat_std self gr g = Ret gr').
Proof.
  intros xtgxi c_hat raw. split.
  - intros gr' H. unfold Double.grad in H.
    apply double_grad_explicit_inverse_Ret in H as ->.
    rewrite double_clampPos_map. fold xtgxi c_hat raw.
    split; [reflexivity|]. split.
    + apply List.Forall_forall. intros e He.
      apply in_map_iff in He as (e0 & <- & _). apply double_std_min_zero.
    + induction raw as [|e0 raw' IH]; constructor; [|exact IH].
      apply double_std_min_zero.
  - intros Hg Hr Hc. unfold Double.grad, Double.grad_explicit_inverse.
    rewrite !assert_true_then; [eexists; reflexivity | | | ].
    + apply Z.eqb_eq. exact Hc.
    + apply Z.eqb_eq. exact Hr.
    + apply Z.eqb_eq. exact Hg.
Qed.

End DoubleGradient.

Section DoubleGradientExamples.

Lemma grad_entries_nonpositive_or_nan_witness :
  exists gr' : list PrimFloat.float,
    Double.grad Double.solve_diagonal Double.pop_cov Double.pop_std
      Double.varying_reference_rows [] [PrimFloat.one; PrimFloat.one] = Ret gr'
    /\ Forall (fun e => PrimFloat.leb e PrimFloat.zero = true
                        \/ PrimFloat.is_nan e = true) gr'.
Proof.
  destruct (grad_entries_nonpositive_or_nan Double.solve_diagonal Double.pop_cov
              Double.pop_std Double.varying_reference_rows []
              [PrimFloat.one; PrimFloat.one]) as [Hle Hret].
  destruct (Hret eq_refl eq_refl eq_refl) as [gr' Hgr'].
  exists gr'. split; [exact Hgr' | apply (Hle gr' Hgr')].
Defined.

(** With a constant row in the reference matrix, whose standard deviation
    is zero, [A.row(0)] is 0/0 throughout; the NaN reaches every entry of
    the diagonal and passes the clamp: the returned entries do not lie in
    (-infinity, 0]. *)
Lemma grad_returns_nan :
  Double.grad Double.solve_diagonal Double.pop_cov Double.pop_std
    Double.constant_reference_row [] [PrimFloat.one; PrimFloat.one]
  = Ret [PrimFloat.nan; PrimFloat.nan]
  /\ PrimFloat.leb PrimFloat.nan PrimFloat.zero = false
  /\ Double.pop_std (Double.mrow (Double.m_c Double.constant_reference_row) 0)
     = PrimFloat.zero.
Proof. repeat split; vm_compute; reflexivity. Qed.

End DoubleGradientExamples.

(* ================================================================== *)
(** ** Finite sums *)

Section Sums.

Lemma vsum_app (l1 l2 : list R) : vsum (l1 ++ l2) = vsum l1 + vsum l2.
Proof.
  unfold vsum. induction l1 as [|a l1 IH]; cbn.
  - lra.
  - rewrite IH. lra.
Qed.

Lemma vsum_Permutation (l1 l2 : list R) : Permutation l1 l2 -> vsum l1 = vsum l2.
Proof.
  unfold vsum. induction 1 as [| a l1 l2 _ IH | a b l | l1 l2 l3 _ IH1 _ IH2]; cbn.
  - reflexivity.
  - rewrite IH. reflexivity.
  - lra.
  - congruence.
Qed.

Lemma sum_upto_S (n : nat) (f : nat -> R) :
  sum_upto (S n) f = sum_upto n f + f n.
Proof.
  unfold sum_upto. rewrite seq_S, map_app, vsum_app. cbn. lra.
Qed.

Lemma sum_upto_ext (n : nat) (f g : nat -> R) :
  (forall i, (i < n)%nat -> f i = g i) -> sum_upto n f = sum_upto n g.
Proof.
  intros H. unfold sum_upto. f_equal. apply map_ext_in.
  intros i Hi. apply in_seq in Hi. apply H. lia.
Qed.

Lemma sum_upto_zero (n : nat) : sum_upto n (fun _ => 0) = 0.
Proof.
  induction n as [|n IH]; [reflexivity|]. rewrite sum_upto_S, IH. lra.
Qed.

Lemma sum_upto_plus (n : nat) (f g : nat -> R) :
  sum_upto n (fun i => f i + g i) = sum_upto n f + sum_upto n g.
Proof.
  induction n as [|n IH]; [cbn; lra|]. rewrite !sum_upto_S, IH. lra.
Qed.

Lemma sum_upto_scale_l (n : nat) (c : R) (f : nat -> R) :
  sum_upto n (fun i => c * f i) = c * sum_upto n f.
Proof.
  induction n as [|n IH]; [cbn; lra|]. rewrite !sum_upto_S, IH. lra.
Qed.

Lemma sum_upto_scale_r (n : nat) (c : R) (f : nat -> R) :
  sum_upto n (fun i => f i * c) = sum_upto n f * c.
Proof.
  induction n as [|n IH]; [cbn; lra|]. rewrite !sum_upto_S, IH. lra.
Qed.

Lemma sum_upto_swap (n m : nat) (f : nat -> nat -> R) :
  sum_upto n (fun i => sum_upto m (fun j => f i j))
  = sum_upto m (fun j => sum_upto n (fun i => f i j)).
Proof.
  induction n as [|n IH].
  - cbn. symmetry. apply sum_upto_zero.
  - rewrite sum_upto_S, IH, <- sum_upto_plus.
    apply sum_upto_ext. intros j _. rewrite sum_upto_S. reflexivity.
Qed.

Lemma sum_upto_delta_l (n j : nat) (f : nat -> R) :
  (j < n)%nat -> sum_upto n (fun i => delta j i * f i) = f j.
Proof.
  unfold delta. induction n as [|n IH]; intros Hj; [lia|].
  rewrite sum_upto_S. destruct (Nat.eq_dec j n) as [->|Hne].
  - rewrite Nat.eqb_refl.
    rewrite (sum_upto_ext n _ (fun _ => 0)).
    + rewrite sum_upto_zero. lra.
    + intros i Hi. destruct (Nat.eqb_spec n i); [lia | lra].
  - rewrite IH by lia. destruct (Nat.eqb_spec j n); [lia | lra].
Qed.

Lemma sum_upto_delta_r (n j : nat) (f : nat -> R) :
  (j < n)%nat -> sum_upto n (fun i => f i * delta i j) = f j.
Proof.
  intros Hj. rewrite <- (sum_upto_delta_l n j f Hj) at 1.
  apply sum_upto_ext. intros i _. unfold delta.
  rewrite (Nat.eqb_sym i j). lra.
Qed.

Lemma permutation_of_seq (k : nat) (sigma : nat -> nat) :
  permutation_of k sigma -> Permutation (map sigma (seq 0 k)) (seq 0 k).
Proof.
  intros [Hrange Hinj]. apply NoDup_Permutation_bis.
  - apply NoDup_map_NoDup_ForallPairs; [|apply seq_NoDup].
    intros i j Hi Hj. apply in_seq in Hi, Hj. apply Hinj; lia.
  - rewrite length_map. reflexivity.
  - intros y Hy. apply in_map_iff in Hy as (i & <- & Hi).
    apply in_seq in Hi. apply in_seq. specialize (Hrange i). lia.
Qed.

Lemma sum_upto_reindex (k : nat) (sigma : nat -> nat) (f : nat -> R) :
  permutation_of k sigma ->
  sum_upto k (fun i => f (sigma i)) = sum_upto k f.
Proof.
  intros Hperm. unfold sum_upto.
  rewrite <- (map_map sigma f). apply vsum_Permutation, Permutation_map.
  apply permutation_of_seq, Hperm.
Qed.

Lemma delta_sym (i j : nat) : delta i j = delta j i.
Proof. unfold delta. rewrite (Nat.eqb_sym i j). reflexivity. Qed.

Lemma delta_refl (i : nat) : delta i i = 1.
Proof. unfold delta. rewrite Nat.eqb_refl. reflexivity. Qed.

Lemma delta_permutation (k : nat) (sigma : nat -> nat) (i j : nat) :
  permutation_of k sigma -> (i < k)%nat -> (j < k)%nat ->
  delta (sigma i) (sigma j) = delta i j.
Proof.
  intros [_ Hinj] Hi Hj. unfold delta.
  destruct (Nat.eqb_spec (sigma i) (sigma j)) as [Heq|Hne], (Nat.eqb_spec i j) as [Hij|Hij];
    try reflexivity.
  - exfalso. apply Hij, Hinj; assumption.
  - exfalso. apply Hne. rewrite Hij. reflexivity.
Qed.

(** A square system has at most one inverse: a left inverse [B] and a
    right inverse [Z] of [A] agree. *)
Lemma left_right_inverse_agree (k : nat) (A B Z : nat -> nat -> R) :
  (forall i j, (i < k)%nat -> (j < k)%nat ->
     sum_upto k (fun l => B i l * A l j) = delta i j) ->
  (forall i j, (i < k)%nat -> (j < k)%nat ->
     sum_upto k (fun l => A i l * Z l j) = delta i j) ->
  forall i j, (i < k)%nat -> (j < k)%nat -> Z i j = B i j.
Proof.
  intros HB HZ i j Hi Hj.
  rewrite <- (sum_upto_delta_l k i (fun l => Z l j) Hi).
  rewrite (sum_upto_ext k _
             (fun l => sum_upto k (fun m => B i m * (A m l * Z l j)))).
  2:{ intros l Hl. rewrite <- (HB i l Hi Hl), <- sum_upto_scale_r.
      apply sum_upto_ext. intros m _. lra. }
  rewrite sum_upto_swap.
  rewrite (sum_upto_ext k _ (fun m => B i m * delta m j)).
  2:{ intros m Hm. rewrite sum_upto_scale_l, (HZ m j Hm Hj). reflexivity. }
  apply sum_upto_delta_r, Hj.
Qed.

End Sums.

(* ================================================================== *)
(** ** The objective: [evaluate] and the weighted regression solve *)

Section Objective.

Variable llt_solve : mat -> mat -> mat.
Variable stat_cor : list R -> list R -> R.

Lemma for_upto_S {S : Type} (n : nat) (body : nat -> S -> S) (s : S) :
  for_upto (Datatypes.S n) body s = body n (for_upto n body s).
Proof. unfold for_upto. rewrite seq_S, fold_left_app. reflexivity. Qed.

Lemma subtract_loop_sum (n : nat) (f : nat -> R) (r0 : R) :
  for_upto n (fun i res => res - f i) r0 = r0 - sum_upto n f.
Proof.
  induction n as [|n IH].
  - cbn. lra.
  - rewrite for_upto_S, IH, sum_upto_S. lra.
Qed.

Lemma xtgx_symmetric (x : mat) (g : list R) (i j : nat) :
  mcoeff (xtgx_of x g) i j = mcoeff (xtgx_of x g) j i.
Proof.
  unfold xtgx_of. cbn [mmul transpose asDiagonal mcoeff rows cols].
  apply sum_upto_ext. intros l _.
  rewrite <- !sum_upto_scale_r. apply sum_upto_ext. intros a _.
  destruct (Nat.eqb_spec a l) as [->|_]; lra.
Qed.

(** A right inverse of a symmetric matrix is symmetric and is a left
    inverse too. *)
Lemma symmetric_right_inverse (k : nat) (A Z : nat -> nat -> R) :
  (forall i j, A i j = A j i) ->
  (forall i j, (i < k)%nat -> (j < k)%nat ->
     sum_upto k (fun l => A i l * Z l j) = delta i j) ->
  (forall i j, (i < k)%nat -> (j < k)%nat -> Z i j = Z j i)
  /\ (forall i j, (i < k)%nat -> (j < k)%nat ->
        sum_upto k (fun l => Z i l * A l j) = delta i j).
Proof.
  intros Hsym HZ.
  assert (Hleft : forall i j, (i < k)%nat -> (j < k)%nat ->
            sum_upto k (fun l => Z l i * A l j) = delta i j).
  { intros i j Hi Hj. rewrite (delta_sym i j), <- (HZ j i Hj Hi).
    apply sum_upto_ext. intros l _. rewrite (Hsym l j). lra. }
  assert (HZsym : forall i j, (i < k)%nat -> (j < k)%nat -> Z i j = Z j i).
  { apply (left_right_inverse_agree k A (fun i l => Z l i) Z Hleft HZ). }
  split; [exact HZsym|].
  intros i j Hi Hj. rewrite <- (Hleft i j Hi Hj).
  apply sum_upto_ext. intros l Hl. rewrite (HZsym i l Hi Hl). reflexivity.
Qed.

Lemma solved_system_inverse (x : mat) (g : list R) (Z : mat) :
  solves (xtgx_of x g) Z (Identity (cols x) (cols x)) ->
  inverse_of (xtgx_of x g) Z.
Proof.
  intros (Hrows & Hcols & Hsol).
  destruct (symmetric_right_inverse (cols x) (mcoeff (xtgx_of x g)) (mcoeff Z)
              (xtgx_symmetric x g) Hsol) as [_ Hleft].
  split; [exact Hrows|]. split; [exact Hcols|].
  intros i j Hi Hj. split.
  - apply Hsol; assumption.
  - cbn [mmul mcoeff]. rewrite Hcols. apply Hleft; assumption.
Qed.

(** What [evaluate] returns once its five assertions hold: the loop has
    subtracted one correlation per cell type from 0, and the result is
    divided by the number of cell types. *)
Lemma evaluate_when_asserts_hold (self : GoertlerModel) (g : list R) (xtgxi : mat) :
  sizes_initialised self ->
  Z.of_nat (length g) = m_ngenes self ->
  rows xtgxi = cols (m_x self) ->
  cols xtgxi = cols (m_x self) ->
  evaluate stat_cor self g xtgxi
  = Ret ((0 - sum_upto (cols (m_x self))
                (fun i =>
                   stat_cor (mrow (m_c self) i)
                     (mrow (estimate_c_direct (m_x self) (m_y self) g xtgxi) i)))
         / INR (cols (m_x self))).
Proof.
  intros (Hn & Hk & Hs) Hg Hrows Hcols. unfold evaluate.
  rewrite !assert_true_then.
  - rewrite subtract_loop_sum, Hk, Nat2Z.id, <- INR_IZR_INZ. reflexivity.
  - apply Z.eqb_eq. cbn. symmetry. exact Hs.
  - apply Z.eqb_eq. cbn. rewrite Hrows, Hk. reflexivity.
  - apply Z.eqb_eq. rewrite Hcols, Hk. reflexivity.
  - apply Z.eqb_eq. rewrite Hrows, Hk. reflexivity.
  - apply Z.eqb_eq. exact Hg.
Qed.

(** C1.  For a weight vector of the length of the gene dimension whose
    weighted Gram matrix is symmetric positive definite (so that the
    Cholesky solve is exact on it), [xtgxi] is the inverse of
    [X^T diag(g) X] and [evaluate], run on it, returns minus the average, over the cell
    types [i], of the correlation of row [i] of [C] with row [i] of
    [c_hat = xtgxi * X^T * diag(g) * Y]. *)
Theorem evaluate_average_correlation (self : GoertlerModel) (g : list R) :
  sizes_initialised self ->
  Z.of_nat (length g) = m_ngenes self ->
  SPD (xtgx_of (m_x self) g) ->
  llt_exact_on llt_solve (xtgx_of (m_x self) g) ->
  let ncells := cols (m_x self) in
  let xtgxi := invxtgx llt_solve (m_x self) g in
  let c_hat := mmul (mmul (mmul xtgxi (transpose (m_x self))) (asDiagonal g)) (m_y self) in
  inverse_of (xtgx_of (m_x self) g) xtgxi
  /\ evaluate stat_cor self g (invxtgx llt_solve (m_x self) g)
     = Ret (- (1 / INR ncells)
            * sum_upto ncells (fun i => stat_cor (mrow (m_c self) i) (mrow c_hat i))).
Proof.
  intros Hsizes Hg Hspd Hexact ncells xtgxi c_hat.
  pose proof (Hexact Hspd) as Hsolves.
  change (solves (xtgx_of (m_x self) g) xtgxi (Identity ncells ncells)) in Hsolves.
  split; [apply solved_system_inverse, Hsolves|].
  destruct Hsolves as (Hrows & Hcols & _). cbn in Hrows, Hcols.
  fold xtgxi.
  rewrite (evaluate_when_asserts_hold self g xtgxi Hsizes Hg Hrows Hcols).
  f_equal. fold ncells. unfold estimate_c_direct. fold c_hat.
  unfold Rdiv. lra.
Qed.

End Objective.

Section ObjectiveExamples.

(** The weighted Gram matrix of the identity design matrix under unit
    weights is the identity. *)
Lemma configured_gram (tf : ThresholdFunctions) (nf : NormFunctions)
  (sf : SubspaceFunctions) (i j : nat) :
  (i < 2)%nat -> (j < 2)%nat ->
  mcoeff (xtgx_of (m_x (configured tf nf sf)) [1; 1]) i j = delta i j.
Proof.
  intros Hi Hj.
  destruct i as [|[|i]]; [| |lia]; (destruct j as [|[|j]]; [| |lia]);
    unfold delta; cbn; lra.
Qed.

Lemma configured_gram_SPD (tf : ThresholdFunctions) (nf : NormFunctions)
  (sf : SubspaceFunctions) :
  SPD (xtgx_of (m_x (configured tf nf sf)) [1; 1]).
Proof.
  split; [reflexivity|]. split.
  - intros i j _ _. apply xtgx_symmetric.
  - intros v (i & Hi & Hv). unfold quad_form.
    change (rows (xtgx_of (m_x (configured tf nf sf)) [1; 1])) with 2%nat.
    change (cols (xtgx_of (m_x (configured tf nf sf)) [1; 1])) with 2%nat.
    rewrite (sum_upto_ext 2 _ (fun i => v i * v i)).
    + cbn in Hi. unfold sum_upto. cbn.
      destruct i as [|[|i]]; [nra | nra | lia].
    + intros a Ha.
      rewrite (sum_upto_ext 2 _ (fun j => delta a j * (v a * v j))).
      * apply sum_upto_delta_l, Ha.
      * intros b Hb. rewrite configured_gram by assumption. lra.
Qed.

Lemma solve_diagonal_exact_on_configured (tf : ThresholdFunctions)
  (nf : NormFunctions) (sf : SubspaceFunctions) :
  llt_exact_on solve_diagonal (xtgx_of (m_x (configured tf nf sf)) [1; 1]).
Proof.
  intros _. split; [reflexivity|]. split; [reflexivity|].
  intros i j Hi Hj. cbn in Hi, Hj.
  cbn [mmul mcoeff solve_diagonal Identity].
  change (cols (xtgx_of (m_x (configured tf nf sf)) [1; 1])) with 2%nat.
  rewrite (sum_upto_ext 2 _ (fun l => delta i l * delta l j)).
  - apply (sum_upto_delta_l 2 i (fun l => delta l j) Hi).
  - intros l Hl. rewrite !configured_gram by assumption.
    rewrite delta_refl. unfold delta. lra.
Qed.

Lemma evaluate_average_correlation_witness :
  evaluate pearson_cor (configured SOFTMAX IDENTITY POSITIVE) [1; 1]
       (invxtgx solve_diagonal (m_x (configured SOFTMAX IDENTITY POSITIVE)) [1; 1])
  = Ret (- (1 / INR 2)
         * sum_upto 2
             (fun i =>
                pearson_cor (mrow (m_c (configured SOFTMAX IDENTITY POSITIVE)) i)
                  (mrow
                     (mmul
                        (mmul
                           (mmul
                              (invxtgx solve_diagonal
                                 (m_x (configured SOFTMAX IDENTITY POSITIVE)) [1; 1])
                              (transpose (m_x (configured SOFTMAX IDENTITY POSITIVE))))
                           (asDiagonal [1; 1]))
                        (m_y (configured SOFTMAX IDENTITY POSITIVE))) i))).
Proof.
  apply (evaluate_average_correlation solve_diagonal pearson_cor
           (configured SOFTMAX IDENTITY POSITIVE) [1; 1]
           (configured_sizes _ _ _) eq_refl
           (configured_gram_SPD _ _ _)
           (solve_diagonal_exact_on_configured _ _ _)).
Defined.

End ObjectiveExamples.

(* ================================================================== *)
(** ** Relabelling the cell types *)

Section Relabelling.

Variable llt_solve : mat -> mat -> mat.
Variable stat_cor : list R -> list R -> R.

(** The inverse of a symmetric matrix whose rows and columns are permuted
    by [sigma] is the inverse permuted in the same way. *)
Lemma permuted_inverse (k : nat) (sigma : nat -> nat) (A Z Z' : nat -> nat -> R) :
  permutation_of k sigma ->
  (forall i j, A i j = A j i) ->
  (forall i j, (i < k)%nat -> (j < k)%nat ->
     sum_upto k (fun l => A i l * Z l j) = delta i j) ->
  (forall i j, (i < k)%nat -> (j < k)%nat ->
     sum_upto k (fun l => A (sigma i) (sigma l) * Z' l j) = delta i j) ->
  forall i j, (i < k)%nat -> (j < k)%nat -> Z' i j = Z (sigma i) (sigma j).
Proof.
  intros Hperm Hsym HZ HZ' i j Hi Hj.
  destruct (symmetric_right_inverse k A Z Hsym HZ) as [HZsym Hleft].
  pose proof Hperm as [Hrange _].
  rewrite (HZsym (sigma i) (sigma j)) by auto.
  apply (left_right_inverse_agree k (fun a b => A (sigma a) (sigma b))
           (fun a b => Z (sigma b) (sigma a)) Z'); try assumption.
  clear i j Hi Hj. intros i j Hi Hj.
  rewrite (sum_upto_reindex k sigma (fun l => Z l (sigma i) * A l (sigma j)) Hperm).
  rewrite <- (delta_permutation k sigma i j Hperm Hi Hj).
  rewrite <- (Hleft (sigma i) (sigma j)) by auto.
  apply sum_upto_ext. intros l Hl. rewrite (HZsym l (sigma i)) by auto. reflexivity.
Qed.

Lemma estimate_relabelled (x y : mat) (g : list R) (xi xi' : mat)
  (sigma : nat -> nat) (i j : nat) :
  permutation_of (cols x) sigma ->
  cols xi = cols x -> cols xi' = cols x ->
  (forall l, (l < cols x)%nat -> mcoeff xi' i l = mcoeff xi (sigma i) (sigma l)) ->
  mcoeff (estimate_c_direct (permute_cols sigma x) y g xi') i j
  = mcoeff (estimate_c_direct x y g xi) (sigma i) j.
Proof.
  intros Hperm Hc Hc' Hxi.
  unfold estimate_c_direct.
  cbn [mmul transpose asDiagonal permute_cols mcoeff rows cols].
  apply sum_upto_ext. intros b _. f_equal.
  apply sum_upto_ext. intros a _. f_equal.
  rewrite Hc, Hc'.
  rewrite <- (sum_upto_reindex (cols x) sigma
                (fun l => mcoeff xi (sigma i) l * mcoeff x a l) Hperm).
  apply sum_upto_ext. intros l Hl. rewrite Hxi by exact Hl. reflexivity.
Qed.

(** Row [i] of the estimate for the relabelled model is row [sigma i] of
    the estimate for the original one. *)
Lemma relabelled_estimate_rows (x y : mat) (g : list R) (sigma : nat -> nat) :
  permutation_of (cols x) sigma ->
  solves (xtgx_of x g) (invxtgx llt_solve x g) (Identity (cols x) (cols x)) ->
  solves (xtgx_of (permute_cols sigma x) g) (invxtgx llt_solve (permute_cols sigma x) g)
    (Identity (cols x) (cols x)) ->
  forall i, (i < cols x)%nat ->
    mrow (estimate_c_direct (permute_cols sigma x) y g
            (invxtgx llt_solve (permute_cols sigma x) g)) i
    = mrow (estimate_c_direct x y g (invxtgx llt_solve x g)) (sigma i).
Proof.
  intros Hperm (_ & Hcols & HZ) (_ & Hcols' & HZ') i Hi.
  cbn in Hcols, Hcols'.
  unfold mrow. apply map_ext. intros j.
  apply estimate_relabelled; try assumption.
  intros l Hl.
  apply (permuted_inverse (cols x) sigma (mcoeff (xtgx_of x g))); try assumption.
  apply xtgx_symmetric.
Qed.

(** C5, as the code has it.  The cell types index the columns of [X] and
    the rows of [C].  Permuting both by the same permutation leaves the
    score unchanged, when the Cholesky solve returns the solution of the
    original and of the permuted system. *)
Theorem evaluate_relabel_cells (self : GoertlerModel) (sigma : nat -> nat) (g : list R) :
  sizes_initialised self ->
  Z.of_nat (length g) = m_ngenes self ->
  permutation_of (cols (m_x self)) sigma ->
  solves (xtgx_of (m_x self) g) (invxtgx llt_solve (m_x self) g)
    (Identity (cols (m_x self)) (cols (m_x self))) ->
  solves (xtgx_of (permute_cols sigma (m_x self)) g)
    (invxtgx llt_solve (permute_cols sigma (m_x self)) g)
    (Identity (cols (m_x self)) (cols (m_x self))) ->
  exists s : R,
    evaluate stat_cor self g (invxtgx llt_solve (m_x self) g) = Ret s
    /\ evaluate stat_cor (relabel_cells sigma self) g
         (invxtgx llt_solve (m_x (relabel_cells sigma self)) g) = Ret s.
Proof.
  intros Hsizes Hg Hperm Hsol Hsol'.
  pose proof (relabelled_estimate_rows (m_x self) (m_y self) g sigma Hperm Hsol Hsol')
    as Hrow.
  destruct Hsol as (Hrows & Hcols & _), Hsol' as (Hrows' & Hcols' & _).
  cbn in Hrows, Hcols, Hrows', Hcols'.
  change (m_x (relabel_cells sigma self)) with (permute_cols sigma (m_x self)).
  rewrite (evaluate_when_asserts_hold stat_cor self g _ Hsizes Hg Hrows Hcols).
  rewrite (evaluate_when_asserts_hold stat_cor (relabel_cells sigma self) g _
             Hsizes Hg Hrows' Hcols').
  eexists. split; [reflexivity|].
  cbn [relabel_cells with_matrices m_x m_y m_c permute_cols cols].
  do 3 f_equal.
  rewrite <- (sum_upto_reindex (cols (m_x self)) sigma
                (fun i => stat_cor (mrow (m_c self) i)
                            (mrow (estimate_c_direct (m_x self) (m_y self) g
                                     (invxtgx llt_solve (m_x self) g)) i))
                Hperm).
  apply sum_upto_ext. intros i Hi. rewrite (Hrow i Hi). reflexivity.
Qed.

(** Positive definiteness survives the relabelling: the quadratic form of
    the permuted Gram matrix at [v] is that of the original at [v] carried
    along [sigma]. *)
Theorem relabelled_gram_SPD (x : mat) (g : list R) (sigma : nat -> nat) :
  permutation_of (cols x) sigma ->
  SPD (xtgx_of x g) -> SPD (xtgx_of (permute_cols sigma x) g).
Proof.
  intros Hperm (_ & _ & Hpos).
  split; [reflexivity|]. split; [intros i j _ _; apply xtgx_symmetric|].
  intros v (i0 & Hi0 & Hv).
  change (rows (xtgx_of (permute_cols sigma x) g)) with (cols x) in Hi0.
  change (rows (xtgx_of x g)) with (cols x) in Hpos.
  set (k := cols x) in *.
  set (w := fun a => sum_upto k (fun i => delta (sigma i) a * v i)).
  assert (Hw : forall i, (i < k)%nat -> w (sigma i) = v i).
  { intros i Hi. unfold w.
    rewrite (sum_upto_ext k _ (fun l => delta i l * v l)).
    - apply sum_upto_delta_l, Hi.
    - intros l Hl. rewrite (delta_permutation k sigma l i Hperm Hl Hi).
      rewrite (delta_sym l i). reflexivity. }
  assert (Hquad : quad_form (xtgx_of (permute_cols sigma x) g) v
                  = quad_form (xtgx_of x g) w).
  { unfold quad_form.
    change (rows (xtgx_of (permute_cols sigma x) g)) with k.
    change (cols (xtgx_of (permute_cols sigma x) g)) with k.
    change (rows (xtgx_of x g)) with k.
    change (cols (xtgx_of x g)) with k.
    rewrite <- (sum_upto_reindex k sigma
                  (fun a => sum_upto k (fun b => w a * mcoeff (xtgx_of x g) a b * w b))
                  Hperm).
    apply sum_upto_ext. intros i Hi.
    rewrite <- (sum_upto_reindex k sigma
                  (fun b => w (sigma i) * mcoeff (xtgx_of x g) (sigma i) b * w b)
                  Hperm).
    apply sum_upto_ext. intros j Hj.
    rewrite (Hw i Hi), (Hw j Hj). reflexivity. }
  rewrite Hquad. apply Hpos.
  exists (sigma i0). split.
  - apply Hperm, Hi0.
  - rewrite (Hw i0 Hi0). exact Hv.
Qed.

End Relabelling.

(* ================================================================== *)
(** ** Relabelling on concrete models *)

Section RelabellingExamples.

Lemma cycle3_permutation : permutation_of 3 cycle3.
Proof.
  split.
  - intros [|[|[|i]]] Hi; cbn; lia.
  - intros [|[|[|i]]] [|[|[|j]]] Hi Hj; cbn; lia.
Qed.

Lemma swap2_permutation : permutation_of 2 swap2.
Proof.
  split.
  - intros [|[|i]] Hi; cbn; lia.
  - intros [|[|i]] [|[|j]] Hi Hj; cbn; lia.
Qed.

(** [solve_diagonal] solves the system of [invxtgx] whenever the weighted
    Gram matrix is the identity. *)
Lemma solve_diagonal_identity_gram (x : mat) (g : list R) :
  (forall i j, (i < cols x)%nat -> (j < cols x)%nat ->
     mcoeff (xtgx_of x g) i j = delta i j) ->
  solves (xtgx_of x g) (invxtgx solve_diagonal x g) (Identity (cols x) (cols x)).
Proof.
  intros Hgram. split; [reflexivity|]. split; [reflexivity|].
  intros i j Hi Hj.
  change (rows (xtgx_of x g)) with (cols x) in Hi.
  change (cols (Identity (cols x) (cols x))) with (cols x) in Hj.
  unfold invxtgx.
  cbn [mmul mcoeff solve_diagonal Identity].
  change (cols (xtgx_of x g)) with (cols x).
  rewrite (sum_upto_ext (cols x) _ (fun l => delta i l * delta l j)).
  - apply (sum_upto_delta_l (cols x) i (fun l => delta l j) Hi).
  - intros l Hl. rewrite !Hgram by assumption.
    rewrite delta_refl. unfold delta. lra.
Qed.

Lemma swapped_configured_gram (i j : nat) :
  (i < 2)%nat -> (j < 2)%nat ->
  mcoeff (xtgx_of (permute_cols swap2 (m_x (configured SOFTMAX IDENTITY POSITIVE)))
            [1; 1]) i j = delta i j.
Proof.
  intros Hi Hj.
  destruct i as [|[|i]]; [| |lia]; (destruct j as [|[|j]]; [| |lia]);
    unfold delta; cbn; lra.
Qed.

Lemma evaluate_relabel_cells_witness :
  exists s : R,
    evaluate pearson_cor (configured SOFTMAX IDENTITY POSITIVE) [1; 1]
       (invxtgx solve_diagonal (m_x (configured SOFTMAX IDENTITY POSITIVE)) [1; 1]) = Ret s
    /\ evaluate pearson_cor
         (relabel_cells swap2 (configured SOFTMAX IDENTITY POSITIVE)) [1; 1]
         (invxtgx solve_diagonal
            (m_x (relabel_cells swap2 (configured SOFTMAX IDENTITY POSITIVE))) [1; 1]) = Ret s.
Proof.
  apply (evaluate_relabel_cells solve_diagonal pearson_cor
           (configured SOFTMAX IDENTITY POSITIVE) swap2 [1; 1]
           (configured_sizes _ _ _) eq_refl swap2_permutation).
  - apply solve_diagonal_identity_gram. apply configured_gram.
  - apply (solve_diagonal_identity_gram
             (permute_cols swap2 (m_x (configured SOFTMAX IDENTITY POSITIVE))) [1; 1]).
    apply swapped_configured_gram.
Defined.

Lemma relabelled_gram_SPD_witness :
  SPD (xtgx_of (permute_cols swap2 (m_x (configured SOFTMAX IDENTITY POSITIVE))) [1; 1]).
Proof.
  apply (relabelled_gram_SPD (m_x (configured SOFTMAX IDENTITY POSITIVE)) [1; 1] swap2
           swap2_permutation (configured_gram_SPD _ _ _)).
Defined.

Lemma pop_std_01 : pop_std [0; 1] = 1 / 2.
Proof.
  unfold pop_std. apply sqrt_lem_1; [| lra |].
  - unfold pop_cov, mean, arr_sub_scalar. cbn. lra.
  - unfold pop_cov, mean, arr_sub_scalar. cbn. lra.
Qed.

Lemma pop_std_10 : pop_std [1; 0] = 1 / 2.
Proof.
  unfold pop_std. apply sqrt_lem_1; [| lra |].
  - unfold pop_cov, mean, arr_sub_scalar. cbn. lra.
  - unfold pop_cov, mean, arr_sub_scalar. cbn. lra.
Qed.

Lemma pearson_01_01 : pearson_cor [0; 1] [0; 1] = 1.
Proof.
  unfold pearson_cor. rewrite pop_std_01.
  unfold pop_cov, mean, arr_sub_scalar. cbn. lra.
Qed.

Lemma pearson_10_10 : pearson_cor [1; 0] [1; 0] = 1.
Proof.
  unfold pearson_cor. rewrite pop_std_10.
  unfold pop_cov, mean, arr_sub_scalar. cbn. lra.
Qed.

Lemma pearson_10_01 : pearson_cor [1; 0] [0; 1] = -1.
Proof.
  unfold pearson_cor. rewrite pop_std_01, pop_std_10.
  unfold pop_cov, mean, arr_sub_scalar. cbn. lra.
Qed.

Lemma pearson_01_10 : pearson_cor [0; 1] [1; 0] = -1.
Proof.
  unfold pearson_cor. rewrite pop_std_01, pop_std_10.
  unfold pop_cov, mean, arr_sub_scalar. cbn. lra.
Qed.

Ltac row_by_computation :=
  unfold mrow; cbn; repeat (f_equal; try lra).

Lemma three_cells_estimate_rows :
  let c_hat := estimate_c_direct (m_x three_cells) (m_y three_cells) [1; 1; 1]
                 (invxtgx solve_diagonal (m_x three_cells) [1; 1; 1]) in
  mrow c_hat 0 = [0; 1] /\ mrow c_hat 1 = [1; 0] /\ mrow c_hat 2 = [0; 1].
Proof. repeat split; row_by_computation. Qed.

Lemma three_cells_permuted_estimate_rows :
  let self := permute_rows_of_X_and_C cycle3 three_cells in
  let c_hat := estimate_c_direct (m_x self) (m_y self) [1; 1; 1]
                 (invxtgx solve_diagonal (m_x self) [1; 1; 1]) in
  mrow c_hat 0 = [0; 1] /\ mrow c_hat 1 = [0; 1] /\ mrow c_hat 2 = [1; 0].
Proof. repeat split; row_by_computation. Qed.

Lemma three_cells_score : evaluate pearson_cor three_cells [1; 1; 1]
      (invxtgx solve_diagonal (m_x three_cells) [1; 1; 1]) = Ret (-1).
Proof.
  destruct three_cells_estimate_rows as (H0 & H1 & H2).
  unfold evaluate. rewrite !assert_true_then by reflexivity.
  rewrite subtract_loop_sum.
  change (Z.to_nat (m_ncells three_cells)) with 3%nat.
  rewrite !sum_upto_S. change (sum_upto 0 _) with 0. cbv beta.
  rewrite H0, H1, H2.
  change (mrow (m_c three_cells) 0) with [0; 1].
  change (mrow (m_c three_cells) 1) with [1; 0].
  change (mrow (m_c three_cells) 2) with [0; 1].
  rewrite pearson_01_01, pearson_10_10.
  f_equal. cbn. lra.
Qed.

Lemma three_cells_permuted_score :
  evaluate pearson_cor (permute_rows_of_X_and_C cycle3 three_cells) [1; 1; 1]
      (invxtgx solve_diagonal (m_x (permute_rows_of_X_and_C cycle3 three_cells)) [1; 1; 1])
  = Ret (1 / 3).
Proof.
  destruct three_cells_permuted_estimate_rows as (H0 & H1 & H2).
  unfold evaluate. rewrite !assert_true_then by reflexivity.
  rewrite subtract_loop_sum.
  change (Z.to_nat (m_ncells (permute_rows_of_X_and_C cycle3 three_cells))) with 3%nat.
  rewrite !sum_upto_S. change (sum_upto 0 _) with 0. cbv beta.
  rewrite H0, H1, H2.
  change (mrow (m_c (permute_rows_of_X_and_C cycle3 three_cells)) 0) with [1; 0].
  change (mrow (m_c (permute_rows_of_X_and_C cycle3 three_cells)) 1) with [0; 1].
  change (mrow (m_c (permute_rows_of_X_and_C cycle3 three_cells)) 2) with [0; 1].
  rewrite pearson_10_01, pearson_01_01, pearson_01_10.
  f_equal. cbn. lra.
Qed.

(** C5 as the spec states it fails: with three genes and three cell types,
    permuting the rows of [X] and the rows of [C] by the same cyclic
    permutation turns the score -1 into 1/3, although the solve is exact on
    both systems. *)
Lemma permuting_rows_changes_score :
  permutation_of 3 cycle3
  /\ solves (xtgx_of (m_x three_cells) [1; 1; 1])
       (invxtgx solve_diagonal (m_x three_cells) [1; 1; 1]) (Identity 3 3)
  /\ solves (xtgx_of (m_x (permute_rows_of_X_and_C cycle3 three_cells)) [1; 1; 1])
       (invxtgx solve_diagonal (m_x (permute_rows_of_X_and_C cycle3 three_cells))
          [1; 1; 1])
       (Identity 3 3)
  /\ evaluate pearson_cor three_cells [1; 1; 1]
      (invxtgx solve_diagonal (m_x three_cells) [1; 1; 1]) = Ret (-1)
  /\ evaluate pearson_cor (permute_rows_of_X_and_C cycle3 three_cells) [1; 1; 1]
      (invxtgx solve_diagonal (m_x (permute_rows_of_X_and_C cycle3 three_cells)) [1; 1; 1]) = Ret (1 / 3).
Proof.
  split; [exact cycle3_permutation|].
  split; [|split; [|split; [exact three_cells_score | exact three_cells_permuted_score]]].
  - apply (solve_diagonal_identity_gram (m_x three_cells) [1; 1; 1]).
    intros i j Hi Hj. cbn in Hi, Hj.
    destruct i as [|[|[|i]]]; [| | |lia]; (destruct j as [|[|[|j]]]; [| | |lia]);
      unfold delta; cbn; lra.
  - apply (solve_diagonal_identity_gram
             (m_x (permute_rows_of_X_and_C cycle3 three_cells)) [1; 1; 1]).
    intros i j Hi Hj. cbn in Hi, Hj.
    destruct i as [|[|[|i]]]; [| | |lia]; (destruct j as [|[|[|j]]]; [| | |lia]);
      unfold delta; cbn; lra.
Qed.

End RelabellingExamples.


(* ================================================================== *)
(** ** Further properties: the diagnostic check, the identity norm
       constraint, the size of the gradient *)

Section Further.

Variable llt_solve : mat -> mat -> mat.
Variable stat_cor : list R -> list R -> R.
Variable stat_cov : list R -> list R -> R.
Variable stat_std : list R -> R.

(** Products associate: [((P * Q) * R) * S] read through its first
    factor. *)
Lemma mmul_assoc_left (P Q R2 S : mat) (i j : nat) :
  mcoeff (mmul (mmul (mmul P Q) R2) S) i j
  = sum_upto (cols P) (fun a => mcoeff P i a * mcoeff (mmul (mmul Q R2) S) a j).
Proof.
  cbn [mmul mcoeff rows cols].
  rewrite (sum_upto_ext (cols P) _
             (fun a => sum_upto (cols R2)
                         (fun c => mcoeff P i a
                                   * (sum_upto (cols Q)
                                        (fun b => mcoeff Q a b * mcoeff R2 b c)
                                      * mcoeff S c j)))).
  2:{ intros a _. rewrite sum_upto_scale_l. reflexivity. }
  rewrite sum_upto_swap. apply sum_upto_ext. intros c _.
  rewrite <- sum_upto_scale_r.
  rewrite (sum_upto_ext (cols Q) _
             (fun b => sum_upto (cols P)
                         (fun a => mcoeff P i a * mcoeff Q a b * mcoeff R2 b c
                                   * mcoeff S c j))).
  2:{ intros b _. rewrite <- !sum_upto_scale_r. reflexivity. }
  rewrite sum_upto_swap. apply sum_upto_ext. intros a _.
  rewrite <- sum_upto_scale_r, <- sum_upto_scale_l.
  apply sum_upto_ext. intros b _. lra.
Qed.

Lemma sum_upto_all_zero (n : nat) (f : nat -> R) :
  (forall i, (i < n)%nat -> f i = 0) -> sum_upto n f = 0.
Proof.
  intros H. rewrite (sum_upto_ext n f (fun _ => 0) H). apply sum_upto_zero.
Qed.

(** When [xtgxi] solves the system of [invxtgx], [check_posdefmat] accepts
    it for every positive tolerance (and at least one cell type). *)
Theorem check_posdefmat_accepts_solution (x : mat) (g : list R) (xtgxi : mat) (eps : R) :
  solves (xtgx_of x g) xtgxi (Identity (cols x) (cols x)) ->
  (0 < cols x)%nat ->
  0 < eps ->
  check_posdefmat x g xtgxi eps = true.
Proof.
  intros Hsol Hk Heps.
  destruct (solved_system_inverse x g xtgxi Hsol) as (Hrows & Hcols & Hinv).
  cbn in Hrows, Hcols.
  unfold check_posdefmat. apply flt_true.
  replace (mnorm _) with 0.
  - apply Rmult_lt_0_compat; [|exact Heps]. apply lt_0_INR. nia.
  - unfold mnorm. symmetry. rewrite <- sqrt_0. f_equal.
    cbn [msub rows cols mmul]. rewrite Hrows.
    apply sum_upto_all_zero. intros i Hi.
    apply sum_upto_all_zero. intros j Hj.
    cbn [msub mcoeff]. rewrite mmul_assoc_left.
    destruct (Hinv i j Hi Hj) as [_ Hleft].
    cbn [mmul mcoeff] in Hleft. unfold xtgx_of in Hleft.
    rewrite Hleft. cbn [Identity mcoeff]. unfold delta. lra.
Qed.

(** With the IDENTITY variant, [norm_constraint] leaves [v] as it is. *)
Theorem norm_constraint_identity (self : GoertlerModel) (v : list R) :
  m_normfn self = IDENTITY -> norm_constraint self v = Ret v.
Proof.
  intros Hcfg. unfold norm_constraint. rewrite Hcfg.
  rewrite decide_True by reflexivity. reflexivity.
Qed.

(** The vector that [grad] returns has one entry per gene, when [Y] has as
    many rows as [X]. *)
Theorem grad_length (self : GoertlerModel) (gr g gr' : list R) :
  sizes_initialised self ->
  rows (m_y self) = rows (m_x self) ->
  grad llt_solve stat_cov stat_std self gr g = Ret gr' ->
  Z.of_nat (length gr') = m_ngenes self.
Proof.
  intros (Hn & _ & _) Hy H. unfold grad in H.
  apply grad_explicit_inverse_Ret in H as ->.
  rewrite clampPos_map, length_map. unfold diagonal.
  rewrite length_map, length_seq.
  cbn [grad_tmp mmul msub transpose rows cols].
  rewrite Hy, Nat.min_id, Hn. reflexivity.
Qed.

End Further.

Section FurtherExamples.

Lemma check_posdefmat_accepts_solution_witness :
  check_posdefmat (m_x (configured SOFTMAX IDENTITY POSITIVE)) [1; 1]
    (invxtgx solve_diagonal (m_x (configured SOFTMAX IDENTITY POSITIVE)) [1; 1])
    (1 / 1000) = true.
Proof.
  apply (check_posdefmat_accepts_solution
           (m_x (configured SOFTMAX IDENTITY POSITIVE)) [1; 1]).
  - apply solve_diagonal_identity_gram. apply configured_gram.
  - cbn. lia.
  - lra.
Defined.

Lemma norm_constraint_identity_witness :
  norm_constraint (configured SOFTMAX IDENTITY POSITIVE) [3; 0; -4] = Ret [3; 0; -4].
Proof.
  apply (norm_constraint_identity (configured SOFTMAX IDENTITY POSITIVE) [3; 0; -4]).
  reflexivity.
Defined.

Lemma grad_length_witness :
  exists gr' : list R,
    grad solve_diagonal pop_cov pop_std (configured SOFTMAX IDENTITY POSITIVE) [] [1; 1]
      = Ret gr'
    /\ Z.of_nat (length gr') = 2%Z.
Proof.
  destruct (grad_returns solve_diagonal pop_cov pop_std
              (configured SOFTMAX IDENTITY POSITIVE) [] [1; 1]
              solve_diagonal_shape (configured_sizes _ _ _) eq_refl) as [gr' Hgr'].
  exists gr'. split; [exact Hgr'|].
  apply (grad_length solve_diagonal pop_cov pop_std
           (configured SOFTMAX IDENTITY POSITIVE) [] [1; 1] gr'
           (configured_sizes _ _ _) eq_refl Hgr').
Defined.

End FurtherExamples.

(* ================================================================== *)
(** ** The threshold operator as an operation on vectors *)

Section ThresholdAlgebra.

Lemma soft_shrink (lambda x : R) :
  0 <= lambda -> IZR (sgn x) * std_max (Rabs x - lambda) 0 = shrink lambda x.
Proof.
  intros Hl. unfold shrink, sgn, std_max, flt, Rabs.
  destruct (Rcase_abs x) as [Hneg|Hpos];
    destruct (Rlt_dec 0 x), (Rlt_dec x 0); try lra;
    rewrite minus_IZR; cbn [Z.b2z];
    match goal with |- context [Rlt_dec ?a 0] => destruct (Rlt_dec a 0) end;
    destruct (Rlt_dec lambda x), (Rlt_dec x (- lambda)); lra.
Qed.

Lemma shrink_shrink (a b x : R) :
  0 <= a -> 0 <= b -> shrink b (shrink a x) = shrink (a + b) x.
Proof.
  intros Ha Hb. unfold shrink.
  destruct (Rlt_dec a x), (Rlt_dec x (- a)); try lra;
    repeat match goal with
           | |- context [Rlt_dec ?u ?v] => destruct (Rlt_dec u v)
           end; lra.
Qed.

Lemma softmax_shrink (v : list R) (lambda : R) :
  0 <= lambda -> softmax v lambda = map (shrink lambda) v.
Proof.
  intros Hl. rewrite softmax_map. apply map_ext. intros x. apply soft_shrink, Hl.
Qed.

(** Thresholding by [a] and then by [b] is thresholding by [a + b], for
    non-negative amounts; with an unsupported variant both sides throw the
    same error. *)
Theorem threshold_compose (self : GoertlerModel) (v : list R) (a b : R) :
  0 <= a -> 0 <= b ->
  (threshold self v a ≫= fun r => threshold self r b) = threshold self v (a + b).
Proof.
  intros Ha Hb. unfold threshold.
  destruct (decide (m_threshfn self = SOFTMAX)) as [Hcfg|Hcfg]; [|reflexivity].
  unfold mbind, outcome_bind. f_equal.
  rewrite !softmax_shrink by lra. rewrite map_map.
  apply map_ext. intros x. apply shrink_shrink; assumption.
Qed.

Lemma threshold_Ret (self : GoertlerModel) (v r : list R) (lambda : R) :
  threshold self v lambda = Ret r -> r = softmax v lambda.
Proof.
  unfold threshold. destruct (decide (m_threshfn self = SOFTMAX)); [|discriminate].
  intros H. injection H as <-. reflexivity.
Qed.

(** For a non-negative amount, thresholding moves every entry towards zero
    and never across it: the absolute value does not grow and the sign does
    not flip. *)
Theorem threshold_shrinks (self : GoertlerModel) (v r : list R) (lambda : R) :
  0 <= lambda ->
  threshold self v lambda = Ret r ->
  forall i x y, v !! i = Some x -> r !! i = Some y ->
    Rabs y <= Rabs x /\ 0 <= x * y.
Proof.
  intros Hl Hr i x y Hx Hy. apply threshold_Ret in Hr. subst r.
  rewrite softmax_shrink, lookup_map, Hx in Hy by exact Hl.
  injection Hy as <-. unfold shrink, Rabs.
  destruct (Rlt_dec lambda x), (Rlt_dec x (- lambda));
    repeat match goal with
           | |- context [Rcase_abs ?u] => destruct (Rcase_abs u)
           end; split; try lra; nra.
Qed.

(** Thresholding is non-expansive: two inputs that differ by [d] at a
    position give outputs that differ by at most [d] there. *)
Theorem threshold_nonexpansive (self : GoertlerModel) (v w r s : list R) (lambda : R) :
  0 <= lambda ->
  threshold self v lambda = Ret r ->
  threshold self w lambda = Ret s ->
  forall i x x' y y',
    v !! i = Some x -> w !! i = Some x' -> r !! i = Some y -> s !! i = Some y' ->
    Rabs (y - y') <= Rabs (x - x').
Proof.
  intros Hl Hr Hs i x x' y y' Hx Hx' Hy Hy'.
  apply threshold_Ret in Hr, Hs. subst r s.
  rewrite softmax_shrink, lookup_map, Hx in Hy by exact Hl.
  rewrite softmax_shrink, lookup_map, Hx' in Hy' by exact Hl.
  injection Hy as <-. injection Hy' as <-. unfold shrink, Rabs.
  destruct (Rlt_dec lambda x), (Rlt_dec x (- lambda)),
    (Rlt_dec lambda x'), (Rlt_dec x' (- lambda));
    repeat match goal with
           | |- context [Rcase_abs ?u] => destruct (Rcase_abs u)
           end; lra.
Qed.

Lemma soft_opp (lambda x : R) :
  IZR (sgn (- x)) * std_max (Rabs (- x) - lambda) 0
  = - (IZR (sgn x) * std_max (Rabs x - lambda) 0).
Proof.
  rewrite Rabs_Ropp. unfold sgn, flt.
  destruct (Rlt_dec 0 (- x)), (Rlt_dec (- x) 0), (Rlt_dec 0 x), (Rlt_dec x 0);
    try lra; rewrite !minus_IZR; cbn [Z.b2z]; lra.
Qed.

(** Thresholding is odd, for every amount: negating the input negates the
    output. *)
Theorem threshold_odd (self : GoertlerModel) (v r : list R) (lambda : R) :
  threshold self v lambda = Ret r ->
  threshold self (map Ropp v) lambda = Ret (map Ropp r).
Proof.
  intros Hr. pose proof (threshold_Ret self v r lambda Hr) as ->.
  unfold threshold in *.
  destruct (decide (m_threshfn self = SOFTMAX)); [|discriminate].
  f_equal. rewrite !softmax_map, !map_map. apply map_ext. intros x. apply soft_opp.
Qed.

(** A negative amount is not rejected: it pushes every non-zero entry away
    from zero by its absolute value and keeps the sign, and zero entries
    stay zero. *)
Theorem threshold_negative_amount (self : GoertlerModel) (v r : list R) (lambda : R) :
  lambda < 0 ->
  threshold self v lambda = Ret r ->
  forall i x y, v !! i = Some x -> r !! i = Some y ->
    (x = 0 -> y = 0)
    /\ (x <> 0 -> Rabs y = Rabs x + Rabs lambda /\ 0 < x * y).
Proof.
  intros Hl Hr i x y Hx Hy. apply threshold_Ret in Hr. subst r.
  rewrite softmax_map, lookup_map, Hx in Hy. injection Hy as <-.
  unfold sgn, std_max, flt.
  assert (Habs : 0 <= Rabs x) by apply Rabs_pos.
  destruct (Rlt_dec (Rabs x - lambda) 0); [lra|].
  rewrite (Rabs_left lambda) by exact Hl.
  destruct (Rlt_dec 0 x), (Rlt_dec x 0); try lra; rewrite minus_IZR; cbn [Z.b2z].
  - rewrite (Rabs_right x) in * by lra. split; [lra|]. intros _.
    rewrite Rabs_right by nra. split; [lra | nra].
  - rewrite (Rabs_left x) in * by lra. split; [lra|]. intros _.
    rewrite Rabs_left by nra. split; [lra | nra].
  - split; [intros _; lra | intros Hne; lra].
Qed.

End ThresholdAlgebra.

Section ThresholdAlgebraExamples.

Lemma threshold_compose_witness :
  (threshold (configured SOFTMAX IDENTITY POSITIVE) [3; -1; 1 / 2] 1
     ≫= fun r => threshold (configured SOFTMAX IDENTITY POSITIVE) r 2)
  = threshold (configured SOFTMAX IDENTITY POSITIVE) [3; -1; 1 / 2] (1 + 2).
Proof.
  apply (threshold_compose (configured SOFTMAX IDENTITY POSITIVE) [3; -1; 1 / 2] 1 2);
    lra.
Defined.

Lemma threshold_shrinks_witness :
  Rabs (IZR (sgn 3) * std_max (Rabs 3 - 1) 0) <= Rabs 3
  /\ 0 <= 3 * (IZR (sgn 3) * std_max (Rabs 3 - 1) 0).
Proof.
  apply (threshold_shrinks (configured SOFTMAX IDENTITY POSITIVE)
           [3; -1] (softmax [3; -1] 1) 1 Rle_0_1 eq_refl 0%nat 3 _ eq_refl eq_refl).
Defined.

Lemma threshold_nonexpansive_witness :
  Rabs (IZR (sgn 3) * std_max (Rabs 3 - 1) 0
        - IZR (sgn (1 / 2)) * std_max (Rabs (1 / 2) - 1) 0)
  <= Rabs (3 - 1 / 2).
Proof.
  apply (threshold_nonexpansive (configured SOFTMAX IDENTITY POSITIVE)
           [3] [1 / 2] (softmax [3] 1) (softmax [1 / 2] 1) 1 Rle_0_1 eq_refl eq_refl
           0%nat 3 (1 / 2) _ _ eq_refl eq_refl eq_refl eq_refl).
Defined.

Lemma threshold_odd_witness :
  threshold (configured SOFTMAX IDENTITY POSITIVE) (map Ropp [3; -1]) 1
  = Ret (map Ropp (softmax [3; -1] 1)).
Proof.
  apply (threshold_odd (configured SOFTMAX IDENTITY POSITIVE) [3; -1]
           (softmax [3; -1] 1) 1 eq_refl).
Defined.

Lemma threshold_negative_amount_witness :
  (3 = 0 -> IZR (sgn 3) * std_max (Rabs 3 - -1) 0 = 0)
  /\ (3 <> 0 ->
      Rabs (IZR (sgn 3) * std_max (Rabs 3 - -1) 0) = Rabs 3 + Rabs (-1)
      /\ 0 < 3 * (IZR (sgn 3) * std_max (Rabs 3 - -1) 0)).
Proof.
  apply (threshold_negative_amount (configured SOFTMAX IDENTITY POSITIVE)
           [3; 0] (softmax [3; 0] (-1)) (-1) ltac:(lra) eq_refl
           0%nat 3 _ eq_refl eq_refl).
Defined.

End ThresholdAlgebraExamples.

(* ================================================================== *)
(** ** The clamps and the constraints as operations on vectors *)

Section ConstraintAlgebra.

Lemma sgn_pos (x : R) : 0 < x -> sgn x = 1%Z.
Proof. intros H. unfold sgn. rewrite flt_true, flt_false by lra. reflexivity. Qed.

Lemma sgn_zero : sgn 0 = 0%Z.
Proof. unfold sgn. rewrite !flt_false by lra. reflexivity. Qed.

Lemma std_max_0_of_nonneg (x : R) : 0 <= x -> std_max x 0 = x.
Proof. intros H. unfold std_max. rewrite flt_false by lra. reflexivity. Qed.

Lemma std_max_0_of_neg (x : R) : x < 0 -> std_max x 0 = 0.
Proof. intros H. unfold std_max. rewrite flt_true by lra. reflexivity. Qed.

(** [clampNeg] keeps the positive part of a vector and [clampPos] its
    negative part: the two add up to the vector, and at every position one
    of them is zero. *)
Theorem clamp_decomposition (v : list R) :
  zip_with Rplus (clampNeg v) (clampPos v) = v
  /\ zip_with Rmult (clampNeg v) (clampPos v) = map (fun _ => 0) v.
Proof.
  rewrite clampNeg_map, clampPos_map.
  induction v as [|x v [IHs IHp]]; [split; reflexivity|].
  cbn [map zip_with]. rewrite IHs, IHp.
  unfold std_max, std_min, flt.
  destruct (Rlt_dec x 0), (Rlt_dec 0 x); split; f_equal; try lra.
  replace x with 0 by lra. lra.
Qed.

Lemma subspace_constraint_Ret (self : GoertlerModel) (v r : list R) :
  subspace_constraint self v = Ret r -> r = clampNeg v.
Proof.
  unfold subspace_constraint. destruct (decide (m_subspfn self = POSITIVE)); [|discriminate].
  intros H. injection H as <-. reflexivity.
Qed.

Lemma clamped_is_nearest (v : list R) :
  forall w : list R,
    Forall (fun e => 0 <= e) w -> length w = length v ->
    vsum (map (fun x => x * x) (zip_with Rminus v (map (fun e => std_max e 0) v)))
    <= vsum (map (fun x => x * x) (zip_with Rminus v w)).
Proof.
  induction v as [|x v IH]; intros [|y w] Hw Hlen; try discriminate.
  - cbn. lra.
  - apply Forall_cons in Hw as [Hy Hw]. injection Hlen as Hlen.
    specialize (IH w Hw Hlen). cbn [map zip_with vsum fold_right] in *.
    apply Rplus_le_compat; [|exact IH].
    unfold std_max, flt. destruct (Rlt_dec x 0) as [Hneg|Hnneg].
    + assert (0 <= (- x) * y) by (apply Rmult_le_pos; lra). nra.
    + pose proof (Rle_0_sqr (x - y)) as Hsq. unfold Rsqr in Hsq. lra.
Qed.

(** [subspace_constraint] is the projection onto the non-negative orthant:
    among the vectors of the same length without negative entries, none is
    closer to [v] in Euclidean norm than its result. *)
Theorem subspace_constraint_nearest (self : GoertlerModel) (v r w : list R) :
  subspace_constraint self v = Ret r ->
  Forall (fun e => 0 <= e) w ->
  length w = length v ->
  norm (arr_sub v r) <= norm (arr_sub v w).
Proof.
  intros Hr Hw Hlen. apply subspace_constraint_Ret in Hr. subst r.
  rewrite clampNeg_map. unfold norm, arr_sub.
  apply sqrt_le_1_alt. apply clamped_is_nearest; assumption.
Qed.

Lemma soft_of_clamped (lambda x : R) :
  std_max (IZR (sgn x) * std_max (Rabs x - lambda) 0) 0
  = IZR (sgn (std_max x 0)) * std_max (Rabs (std_max x 0) - lambda) 0.
Proof.
  pose proof (std_max_0_nonneg (Rabs x - lambda)) as Hm.
  destruct (Rlt_dec 0 x) as [Hpos|Hnpos].
  - rewrite (std_max_0_of_nonneg x) by lra. rewrite sgn_pos by exact Hpos.
    apply std_max_0_of_nonneg. lra.
  - assert (Hx : std_max x 0 = 0).
    { unfold std_max, flt. destruct (Rlt_dec x 0); lra. }
    rewrite Hx, sgn_zero.
    unfold sgn. rewrite (flt_false 0 x) by lra.
    unfold std_max at 1. unfold flt.
    destruct (Rlt_dec x 0); cbn [Z.b2z]; rewrite minus_IZR;
      match goal with |- context [Rlt_dec ?a 0] => destruct (Rlt_dec a 0) end;
      lra.
Qed.

(** The threshold and the subspace constraint commute, for every amount:
    clamping the thresholded vector gives the thresholded clamped vector. *)
Theorem threshold_subspace_commute (self : GoertlerModel) (v : list R) (lambda : R) :
  m_threshfn self = SOFTMAX ->
  m_subspfn self = POSITIVE ->
  (threshold self v lambda ≫= subspace_constraint self)
  = (subspace_constraint self v ≫= fun r => threshold self r lambda).
Proof.
  intros Ht Hs. unfold threshold, subspace_constraint. rewrite Ht, Hs.
  rewrite !decide_True by reflexivity. unfold mbind, outcome_bind.
  rewrite !decide_True by reflexivity. f_equal.
  rewrite !clampNeg_map, !softmax_map, !map_map.
  apply map_ext. intros x. apply soft_of_clamped.
Qed.

Lemma norm_nonneg (v : list R) : 0 <= norm v.
Proof. unfold norm. apply sqrt_pos. Qed.


Lemma scaled_nonzero (c : R) (v : list R) :
  0 < c -> Exists (fun x => x <> 0) v -> Exists (fun x => x <> 0) (map (Rmult c) v).
Proof.
  intros Hc H. induction H as [x v Hx | x v _ IH]; cbn.
  - apply Exists_cons_hd. nra.
  - apply Exists_cons_tl, IH.
Qed.





End ConstraintAlgebra.

Section ConstraintAlgebraExamples.

Lemma subspace_constraint_nearest_witness :
  norm (arr_sub [2; -3] (clampNeg [2; -3])) <= norm (arr_sub [2; -3] [1; 1]).
Proof.
  apply (subspace_constraint_nearest (configured SOFTMAX IDENTITY POSITIVE)
           [2; -3] (clampNeg [2; -3]) [1; 1] eq_refl).
  - repeat constructor; lra.
  - reflexivity.
Defined.

Lemma threshold_subspace_commute_witness :
  (threshold (configured SOFTMAX IDENTITY POSITIVE) [3; -1; 1 / 2] 1
     ≫= subspace_constraint (configured SOFTMAX IDENTITY POSITIVE))
  = (subspace_constraint (configured SOFTMAX IDENTITY POSITIVE) [3; -1; 1 / 2]
       ≫= fun r => threshold (configured SOFTMAX IDENTITY POSITIVE) r 1).
Proof.
  apply (threshold_subspace_commute (configured SOFTMAX IDENTITY POSITIVE)
           [3; -1; 1 / 2] 1 eq_refl eq_refl).
Defined.




End ConstraintAlgebraExamples.

(* ================================================================== *)
(** ** Products of matrices *)

Section MatrixAlgebra.

Lemma mmul_assoc (P Q S : mat) : same_coefficients (mmul (mmul P Q) S) (mmul P (mmul Q S)).
Proof.
  split; [reflexivity|]. intros i j. cbn [mmul mcoeff rows cols].
  rewrite (sum_upto_ext (cols P) _
             (fun a => sum_upto (cols Q)
                         (fun b => mcoeff P i a * mcoeff Q a b * mcoeff S b j))).
  2:{ intros a _. rewrite <- sum_upto_scale_l. apply sum_upto_ext. intros b _. lra. }
  rewrite sum_upto_swap. apply sum_upto_ext. intros b _.
  rewrite <- sum_upto_scale_r. reflexivity.
Qed.

Lemma same_coefficients_sym (A B : mat) : same_coefficients A B -> same_coefficients B A.
Proof. intros [Hc H]. split; [congruence|]. intros i j. symmetry. apply H. Qed.

Lemma same_coefficients_trans (A B C : mat) :
  same_coefficients A B -> same_coefficients B C -> same_coefficients A C.
Proof.
  intros [Hc1 H1] [Hc2 H2]. split; [congruence|]. intros i j. rewrite H1. apply H2.
Qed.

Lemma mmul_same_l (A A' B : mat) :
  same_coefficients A A' -> same_coefficients (mmul A B) (mmul A' B).
Proof.
  intros [Hc H]. split; [reflexivity|]. intros i j. cbn [mmul mcoeff].
  rewrite Hc. apply sum_upto_ext. intros l _. rewrite H. reflexivity.
Qed.

Lemma mmul_same_r (A B B' : mat) :
  same_coefficients B B' -> same_coefficients (mmul A B) (mmul A B').
Proof.
  intros [Hc H]. split; [exact Hc|]. intros i j. cbn [mmul mcoeff].
  apply sum_upto_ext. intros l _. rewrite H. reflexivity.
Qed.

(** [((((a * b) * c) * d) * e)], the way C++ parses a chain of products,
    equals [a * (((b * c) * d) * e)]. *)
Lemma mmul_chain5 (a b c d e : mat) :
  same_coefficients (mmul (mmul (mmul (mmul a b) c) d) e)
    (mmul a (mmul (mmul (mmul b c) d) e)).
Proof.
  eapply same_coefficients_trans; [|apply mmul_assoc].
  apply mmul_same_l.
  eapply same_coefficients_trans; [|apply mmul_assoc].
  apply mmul_same_l. apply mmul_assoc.
Qed.

Lemma mmul_zero_row (A B : mat) (i : nat) :
  (forall l, mcoeff A i l = 0) -> forall j, mcoeff (mmul A B) i j = 0.
Proof.
  intros H j. cbn [mmul mcoeff]. apply sum_upto_all_zero.
  intros l _. rewrite H. lra.
Qed.

Lemma sum_upto_ones (n : nat) : sum_upto n (fun _ => 1) = INR n.
Proof.
  induction n as [|n IH]; [reflexivity|].
  rewrite sum_upto_S, IH, S_INR. reflexivity.
Qed.

Lemma sum_upto_nonneg (n : nat) (f : nat -> R) :
  (forall i, (i < n)%nat -> 0 <= f i) -> 0 <= sum_upto n f.
Proof.
  induction n as [|n IH]; intros H; [cbn; lra|].
  rewrite sum_upto_S. specialize (IH (fun i Hi => H i (Nat.lt_lt_succ_r _ _ Hi))).
  specialize (H n (Nat.lt_succ_diag_r n)). lra.
Qed.

Lemma sum_upto_le (n : nat) (f g : nat -> R) :
  (forall i, (i < n)%nat -> f i <= g i) -> sum_upto n f <= sum_upto n g.
Proof.
  induction n as [|n IH]; intros H; [cbn; lra|].
  rewrite !sum_upto_S. specialize (IH (fun i Hi => H i (Nat.lt_lt_succ_r _ _ Hi))).
  specialize (H n (Nat.lt_succ_diag_r n)). lra.
Qed.

Lemma sum_upto_term_le (n : nat) (f : nat -> R) (j : nat) :
  (forall i, (i < n)%nat -> 0 <= f i) -> (j < n)%nat -> f j <= sum_upto n f.
Proof.
  induction n as [|n IH]; intros H Hj; [lia|].
  rewrite sum_upto_S.
  pose proof (sum_upto_nonneg n f (fun i Hi => H i (Nat.lt_lt_succ_r _ _ Hi))) as Hs.
  destruct (Nat.eq_dec j n) as [->|Hne]; [lra|].
  specialize (IH (fun i Hi => H i (Nat.lt_lt_succ_r _ _ Hi)) ltac:(lia)).
  specialize (H n (Nat.lt_succ_diag_r n)). lra.
Qed.

Lemma coeff_map_linear (f : R -> R) (g : list R) (i : nat) :
  f 0 = 0 -> coeff (map f g) i = f (coeff g i).
Proof.
  intros H0. unfold coeff. revert i.
  induction g as [|a g IH]; intros [|i]; cbn; auto.
Qed.

End MatrixAlgebra.

(* ================================================================== *)
(** ** The estimate, the score and the gradient on exact data *)

Section ExactData.

Variable llt_solve : mat -> mat -> mat.
Variable stat_cor : list R -> list R -> R.
Variable stat_cov : list R -> list R -> R.
Variable stat_std : list R -> R.

(** With a response that the design matrix explains exactly,
    [y = x * c], and a solved system, the estimate is [c]. *)
Lemma estimate_of_exact_response (x c : mat) (g : list R) (xtgxi : mat) :
  solves (xtgx_of x g) xtgxi (Identity (cols x) (cols x)) ->
  forall i j, (i < cols x)%nat ->
    mcoeff (estimate_c_direct x (mmul x c) g xtgxi) i j = mcoeff c i j.
Proof.
  intros Hsol i j Hi.
  destruct (solved_system_inverse x g xtgxi Hsol) as (_ & Hcols & Hinv).
  cbn in Hcols.
  unfold estimate_c_direct. rewrite mmul_assoc_left, Hcols.
  rewrite (sum_upto_ext (cols x) _
             (fun a => sum_upto (cols x)
                         (fun m => mcoeff xtgxi i a * mcoeff (xtgx_of x g) a m
                                   * mcoeff c m j))).
  2:{ intros a _.
      destruct (mmul_assoc (mmul (transpose x) (asDiagonal g)) x c) as [_ Hassoc].
      rewrite <- Hassoc. cbn [mmul mcoeff]. rewrite <- sum_upto_scale_l.
      apply sum_upto_ext. intros m _. unfold xtgx_of. cbn [mmul mcoeff rows cols]. lra. }
  rewrite sum_upto_swap.
  rewrite (sum_upto_ext (cols x) _ (fun m => delta i m * mcoeff c m j)).
  - apply (sum_upto_delta_l (cols x) i (fun m => mcoeff c m j) Hi).
  - intros m Hm.
    rewrite (sum_upto_scale_r (cols x) (mcoeff c m j)
               (fun a => mcoeff xtgxi i a * mcoeff (xtgx_of x g) a m)).
    destruct (Hinv i m Hi Hm) as [_ Hleft].
    cbn [mmul mcoeff] in Hleft. rewrite Hcols in Hleft. rewrite Hleft. reflexivity.
Qed.

(** The weighted regression recovers the profile behind exact data: if
    [y = x * c] and [xtgxi] solves the system of [invxtgx], then every row
    of [estimate_c_direct] is the row of [c], whatever the weights. *)
Theorem estimate_recovers_profile (x c : mat) (g : list R) (xtgxi : mat) :
  solves (xtgx_of x g) xtgxi (Identity (cols x) (cols x)) ->
  cols (estimate_c_direct x (mmul x c) g xtgxi) = cols c
  /\ forall i, (i < cols x)%nat ->
       mrow (estimate_c_direct x (mmul x c) g xtgxi) i = mrow c i.
Proof.
  intros Hsol. split; [reflexivity|]. intros i Hi. unfold mrow.
  change (cols (estimate_c_direct x (mmul x c) g xtgxi)) with (cols c).
  apply map_ext. intros j. apply estimate_of_exact_response; assumption.
Qed.

(** On exact data the score is the best possible one: if [Y = X * C], the
    system is solved and the correlation of each row of [C] with itself is
    1, [evaluate] returns -1. *)
Theorem evaluate_exact_data (self : GoertlerModel) (g : list R) :
  sizes_initialised self ->
  Z.of_nat (length g) = m_ngenes self ->
  m_y self = mmul (m_x self) (m_c self) ->
  (0 < cols (m_x self))%nat ->
  solves (xtgx_of (m_x self) g) (invxtgx llt_solve (m_x self) g)
    (Identity (cols (m_x self)) (cols (m_x self))) ->
  (forall i, (i < cols (m_x self))%nat ->
     stat_cor (mrow (m_c self) i) (mrow (m_c self) i) = 1) ->
  evaluate stat_cor self g (invxtgx llt_solve (m_x self) g) = Ret (-1).
Proof.
  intros Hsizes Hg Hy Hk Hsol Hcor.
  pose proof Hsol as (Hrows & Hcols & _). cbn in Hrows, Hcols.
  rewrite (evaluate_when_asserts_hold stat_cor self g _ Hsizes Hg Hrows Hcols).
  f_equal.
  rewrite (sum_upto_ext (cols (m_x self)) _ (fun _ => 1)).
  - rewrite sum_upto_ones.
    assert (0 < INR (cols (m_x self))) by (apply lt_0_INR; exact Hk).
    field. lra.
  - intros i Hi. rewrite <- (Hcor i Hi). f_equal.
    rewrite Hy. unfold mrow.
    change (cols (estimate_c_direct (m_x self) (mmul (m_x self) (m_c self)) g
                    (invxtgx llt_solve (m_x self) g))) with (cols (m_c self)).
    apply map_ext. intros j. apply estimate_of_exact_response; assumption.
Qed.

Lemma mcoeff_mmul (A B : mat) (i j : nat) :
  mcoeff (mmul A B) i j = sum_upto (cols A) (fun l => mcoeff A i l * mcoeff B l j).
Proof. reflexivity. Qed.

(** On exact data the residual [Y - X * xtgxi * X^T * diag(g) * Y] of
    [grad_explicit_inverse] vanishes. *)
Lemma residual_of_exact_response (x c : mat) (g : list R) (xtgxi : mat) :
  solves (xtgx_of x g) xtgxi (Identity (cols x) (cols x)) ->
  forall i j,
    mcoeff (msub (mmul x c)
              (mmul (mmul (mmul (mmul x xtgxi) (transpose x)) (asDiagonal g))
                 (mmul x c))) i j = 0.
Proof.
  intros Hsol i j. cbn [msub mcoeff].
  destruct (mmul_chain5 x xtgxi (transpose x) (asDiagonal g) (mmul x c)) as [_ Hchain].
  rewrite Hchain. apply Rminus_diag_eq.
  rewrite (mcoeff_mmul x c),
    (mcoeff_mmul x (mmul (mmul (mmul xtgxi (transpose x)) (asDiagonal g)) (mmul x c))).
  apply sum_upto_ext. intros m Hm. f_equal. symmetry.
  apply (estimate_of_exact_response x c g xtgxi Hsol m j Hm).
Qed.

(** On exact data the gradient vanishes: if [Y = X * C], the system is
    solved, there is a sample and no row of [C] has standard deviation
    zero, then no division of [grad_explicit_inverse] is a division by
    zero, and [grad] returns the zero vector, one entry per gene. *)
Theorem grad_exact_data (self : GoertlerModel) (gr g : list R) :
  sizes_initialised self ->
  Z.of_nat (length g) = m_ngenes self ->
  m_y self = mmul (m_x self) (m_c self) ->
  solves (xtgx_of (m_x self) g) (invxtgx llt_solve (m_x self) g)
    (Identity (cols (m_x self)) (cols (m_x self))) ->
  (0 < cols (m_y self))%nat ->
  (forall i, (i < cols (m_x self))%nat -> stat_std (mrow (m_c self) i) <> 0) ->
  divisors_nonzero stat_std self
    (estimate_c_direct (m_x self) (m_y self) g (invxtgx llt_solve (m_x self) g))
  /\ grad llt_solve stat_cov stat_std self gr g
     = Ret (repeat 0 (rows (m_x self))).
Proof.
  intros (Hn & Hk & Hs) Hg Hy Hsol Hsamples Hstd.
  pose proof Hsol as (Hrows & Hcols & _). cbn in Hrows, Hcols.
  split.
  { split; [lia|]. intros icell Hicell. rewrite Hk, Nat2Z.id in Hicell.
    split; [|apply Hstd, Hicell].
    replace (mrow (estimate_c_direct (m_x self) (m_y self) g
                     (invxtgx llt_solve (m_x self) g)) icell)
      with (mrow (m_c self) icell); [apply Hstd, Hicell|].
    rewrite Hy. unfold mrow.
    change (cols (estimate_c_direct (m_x self) (mmul (m_x self) (m_c self)) g
                    (invxtgx llt_solve (m_x self) g))) with (cols (m_c self)).
    apply map_ext. intros j. symmetry.
    apply estimate_of_exact_response; assumption. }
  unfold grad, grad_explicit_inverse.
  rewrite !assert_true_then.
  2:{ apply Z.eqb_eq. cbn. symmetry. exact Hs. }
  2:{ apply Z.eqb_eq. cbn. rewrite Hrows, Hk. reflexivity. }
  2:{ apply Z.eqb_eq. exact Hg. }
  f_equal. rewrite clampPos_map. unfold diagonal. rewrite map_map.
  set (xi := invxtgx llt_solve (m_x self) g) in *.
  set (A := sensitivity stat_cov stat_std self _).
  assert (Hlen : Nat.min (rows (grad_tmp self g xi A)) (cols (grad_tmp self g xi A))
                 = rows (m_x self)).
  { cbn [grad_tmp mmul msub transpose rows cols]. rewrite Hy. cbn [mmul rows].
    apply Nat.min_id. }
  rewrite Hlen.
  rewrite (map_ext _ (fun _ => 0)).
  - generalize (rows (m_x self)). intros n. generalize 0%nat.
    induction n as [|n IH]; intros start; [reflexivity|].
    cbn [seq map repeat]. f_equal. apply IH.
  - intros i. unfold grad_tmp. rewrite Hy.
    rewrite (mmul_zero_row _ (transpose (m_x self)) i).
    + unfold std_min. rewrite flt_false by lra. reflexivity.
    + apply mmul_zero_row. apply mmul_zero_row.
      apply (residual_of_exact_response (m_x self) (m_c self) g xi Hsol).
Qed.

Lemma sum_upto_bounds (n : nat) (f : nat -> R) :
  (forall i, (i < n)%nat -> -1 <= f i <= 1) -> - INR n <= sum_upto n f <= INR n.
Proof.
  induction n as [|n IH]; intros H; [cbn; lra|].
  rewrite sum_upto_S, S_INR.
  specialize (IH (fun i Hi => H i (Nat.lt_lt_succ_r _ _ Hi))).
  specialize (H n (Nat.lt_succ_diag_r n)). lra.
Qed.

(** The score is an average: when each of the correlations it subtracts
    lies between -1 and 1, and there is at least one cell type, the score
    that [evaluate] returns lies between -1 and 1. *)
Theorem evaluate_score_bounds (self : GoertlerModel) (g : list R) (xtgxi : mat) :
  sizes_initialised self ->
  Z.of_nat (length g) = m_ngenes self ->
  rows xtgxi = cols (m_x self) ->
  cols xtgxi = cols (m_x self) ->
  (0 < cols (m_x self))%nat ->
  (forall i, (i < cols (m_x self))%nat ->
     -1 <= stat_cor (mrow (m_c self) i)
             (mrow (estimate_c_direct (m_x self) (m_y self) g xtgxi) i) <= 1) ->
  exists s : R, evaluate stat_cor self g xtgxi = Ret s /\ -1 <= s <= 1.
Proof.
  intros Hsizes Hg Hrows Hcols Hk Hcor.
  rewrite (evaluate_when_asserts_hold stat_cor self g xtgxi Hsizes Hg Hrows Hcols).
  eexists. split; [reflexivity|].
  pose proof (sum_upto_bounds _ _ Hcor) as Hsum.
  assert (Hpos : 0 < INR (cols (m_x self))) by (apply lt_0_INR; exact Hk).
  assert (Hinv : 0 < / INR (cols (m_x self))) by (apply Rinv_0_lt_compat, Hpos).
  assert (Hone : INR (cols (m_x self)) * / INR (cols (m_x self)) = 1)
    by (apply Rinv_r; lra).
  unfold Rdiv. split; nra.
Qed.

End ExactData.

Section ExactDataExamples.

Lemma exact_model_sizes : sizes_initialised exact_model.
Proof. repeat split. Qed.

Lemma exact_model_solved :
  solves (xtgx_of (m_x exact_model) [1; 1]) (invxtgx solve_diagonal (m_x exact_model) [1; 1])
    (Identity (cols (m_x exact_model)) (cols (m_x exact_model))).
Proof.
  apply (solve_diagonal_identity_gram (m_x exact_model) [1; 1]).
  apply (configured_gram SOFTMAX IDENTITY POSITIVE).
Qed.

Lemma exact_model_self_correlation (i : nat) :
  (i < cols (m_x exact_model))%nat ->
  pearson_cor (mrow (m_c exact_model) i) (mrow (m_c exact_model) i) = 1.
Proof.
  intros Hi. cbn in Hi. destruct i as [|[|i]]; [| |lia].
  - exact pearson_01_01.
  - exact pearson_10_10.
Qed.

Lemma exact_model_estimate_rows (i : nat) :
  (i < cols (m_x exact_model))%nat ->
  mrow (estimate_c_direct (m_x exact_model) (m_y exact_model) [1; 1]
          (invxtgx solve_diagonal (m_x exact_model) [1; 1])) i
  = mrow (m_c exact_model) i.
Proof.
  intros Hi. unfold mrow.
  change (cols (estimate_c_direct (m_x exact_model) (m_y exact_model) [1; 1]
                  (invxtgx solve_diagonal (m_x exact_model) [1; 1])))
    with (cols (m_c exact_model)).
  apply map_ext. intros j.
  apply (estimate_of_exact_response (m_x exact_model) (m_c exact_model) [1; 1]
           _ exact_model_solved i j Hi).
Qed.

Lemma estimate_recovers_profile_witness :
  cols (estimate_c_direct (m_x exact_model) (mmul (m_x exact_model) (m_c exact_model))
          [1; 1] (invxtgx solve_diagonal (m_x exact_model) [1; 1]))
  = cols (m_c exact_model)
  /\ forall i, (i < cols (m_x exact_model))%nat ->
       mrow (estimate_c_direct (m_x exact_model)
               (mmul (m_x exact_model) (m_c exact_model)) [1; 1]
               (invxtgx solve_diagonal (m_x exact_model) [1; 1])) i
       = mrow (m_c exact_model) i.
Proof.
  apply (estimate_recovers_profile (m_x exact_model) (m_c exact_model) [1; 1]
           (invxtgx solve_diagonal (m_x exact_model) [1; 1]) exact_model_solved).
Defined.

Lemma evaluate_exact_data_witness :
  evaluate pearson_cor exact_model [1; 1]
    (invxtgx solve_diagonal (m_x exact_model) [1; 1]) = Ret (-1).
Proof.
  apply (evaluate_exact_data solve_diagonal pearson_cor exact_model [1; 1]
           exact_model_sizes eq_refl eq_refl).
  - cbn. lia.
  - exact exact_model_solved.
  - exact exact_model_self_correlation.
Defined.

Lemma exact_model_reference_varies (i : nat) :
  (i < cols (m_x exact_model))%nat -> pop_std (mrow (m_c exact_model) i) <> 0.
Proof.
  intros Hi. cbn in Hi.
  destruct i as [|[|i]]; [| |lia]; unfold mrow; cbn [exact_model m_c mat_of_rows
    mcoeff cols length nth seq map].
  - rewrite pop_std_01. lra.
  - rewrite pop_std_10. lra.
Qed.

Lemma grad_exact_data_witness :
  divisors_nonzero pop_std exact_model
    (estimate_c_direct (m_x exact_model) (m_y exact_model) [1; 1]
       (invxtgx solve_diagonal (m_x exact_model) [1; 1]))
  /\ grad solve_diagonal pop_cov pop_std exact_model [] [1; 1]
     = Ret (repeat 0 (rows (m_x exact_model))).
Proof.
  apply (grad_exact_data solve_diagonal pop_cov pop_std exact_model [] [1; 1]
           exact_model_sizes eq_refl eq_refl exact_model_solved).
  - cbn. lia.
  - exact exact_model_reference_varies.
Defined.

Lemma evaluate_score_bounds_witness :
  exists s : R,
    evaluate pearson_cor exact_model [1; 1]
      (invxtgx solve_diagonal (m_x exact_model) [1; 1]) = Ret s
    /\ -1 <= s <= 1.
Proof.
  apply (evaluate_score_bounds pearson_cor exact_model [1; 1]
           (invxtgx solve_diagonal (m_x exact_model) [1; 1])
           exact_model_sizes eq_refl eq_refl eq_refl).
  - cbn. lia.
  - intros i Hi. rewrite (exact_model_estimate_rows i Hi).
    rewrite (exact_model_self_correlation i Hi). lra.
Defined.

End ExactDataExamples.

(* ================================================================== *)
(** ** Rescaling the weights *)

Section Rescaling.

Variable llt_solve : mat -> mat -> mat.
Variable stat_cor : list R -> list R -> R.

Lemma rescaled_gram (x : mat) (g g' : list R) (c : R) :
  length g' = length g ->
  (forall i, coeff g' i = c * coeff g i) ->
  forall a b, mcoeff (xtgx_of x g') a b = c * mcoeff (xtgx_of x g) a b.
Proof.
  intros Hlen Hg a b. unfold xtgx_of.
  cbn [mmul transpose asDiagonal mcoeff rows cols]. rewrite Hlen.
  rewrite <- sum_upto_scale_l. apply sum_upto_ext. intros l _.
  rewrite <- Rmult_assoc. f_equal.
  rewrite <- sum_upto_scale_l. apply sum_upto_ext. intros m _.
  destruct (Nat.eqb m l); [rewrite Hg|]; lra.
Qed.

Lemma rescaled_inverse (x : mat) (g g' : list R) (c : R) (xi xi' : mat) :
  c <> 0 ->
  length g' = length g ->
  (forall i, coeff g' i = c * coeff g i) ->
  solves (xtgx_of x g) xi (Identity (cols x) (cols x)) ->
  solves (xtgx_of x g') xi' (Identity (cols x) (cols x)) ->
  forall i j, (i < cols x)%nat -> (j < cols x)%nat ->
    mcoeff xi' i j = mcoeff xi i j / c.
Proof.
  intros Hc Hlen Hg Hsol (_ & _ & HZ').
  destruct (solved_system_inverse x g xi Hsol) as (_ & Hcols & Hinv). cbn in Hcols.
  apply (left_right_inverse_agree (cols x) (mcoeff (xtgx_of x g'))
           (fun i l => mcoeff xi i l / c) (mcoeff xi')); [|exact HZ'].
  intros i j Hi Hj.
  destruct (Hinv i j Hi Hj) as [_ Hleft].
  rewrite mcoeff_mmul, Hcols in Hleft. rewrite <- Hleft.
  apply sum_upto_ext. intros l _.
  rewrite (rescaled_gram x g g' c Hlen Hg). field. exact Hc.
Qed.

Lemma rescaled_estimate (x y : mat) (g g' : list R) (c : R) (xi xi' : mat) :
  c <> 0 ->
  length g' = length g ->
  (forall i, coeff g' i = c * coeff g i) ->
  solves (xtgx_of x g) xi (Identity (cols x) (cols x)) ->
  solves (xtgx_of x g') xi' (Identity (cols x) (cols x)) ->
  forall i j, (i < cols x)%nat ->
    mcoeff (estimate_c_direct x y g' xi') i j = mcoeff (estimate_c_direct x y g xi) i j.
Proof.
  intros Hc Hlen Hg Hsol Hsol' i j Hi.
  pose proof (rescaled_inverse x g g' c xi xi' Hc Hlen Hg Hsol Hsol') as Hxi.
  destruct Hsol as (_ & Hcols & _), Hsol' as (_ & Hcols' & _). cbn in Hcols, Hcols'.
  unfold estimate_c_direct.
  cbn [mmul transpose asDiagonal mcoeff rows cols].
  rewrite Hlen, Hcols, Hcols'.
  apply sum_upto_ext. intros b _. f_equal.
  apply sum_upto_ext. intros a _.
  rewrite (sum_upto_ext (cols x) _
             (fun l => / c * (mcoeff xi i l * mcoeff x a l))).
  2:{ intros l Hl. rewrite (Hxi i l Hi Hl). field. exact Hc. }
  rewrite sum_upto_scale_l.
  destruct (Nat.eqb a b); [rewrite Hg; field; exact Hc | lra].
Qed.

Lemma evaluate_rescaled_weights (self : GoertlerModel) (g g' : list R) (c : R) :
  sizes_initialised self ->
  Z.of_nat (length g) = m_ngenes self ->
  c <> 0 ->
  length g' = length g ->
  (forall i, coeff g' i = c * coeff g i) ->
  solves (xtgx_of (m_x self) g) (invxtgx llt_solve (m_x self) g)
    (Identity (cols (m_x self)) (cols (m_x self))) ->
  solves (xtgx_of (m_x self) g') (invxtgx llt_solve (m_x self) g')
    (Identity (cols (m_x self)) (cols (m_x self))) ->
  evaluate stat_cor self g' (invxtgx llt_solve (m_x self) g')
  = evaluate stat_cor self g (invxtgx llt_solve (m_x self) g).
Proof.
  intros Hsizes Hlg Hc Hlen Hg Hsol Hsol'.
  pose proof Hsol as (Hrows & Hcols & _). pose proof Hsol' as (Hrows' & Hcols' & _).
  cbn in Hrows, Hcols, Hrows', Hcols'.
  assert (Hlg' : Z.of_nat (length g') = m_ngenes self) by (rewrite Hlen; exact Hlg).
  rewrite (evaluate_when_asserts_hold stat_cor self g _ Hsizes Hlg Hrows Hcols).
  rewrite (evaluate_when_asserts_hold stat_cor self g' _ Hsizes Hlg' Hrows' Hcols').
  do 3 f_equal. apply sum_upto_ext. intros i Hi. f_equal.
  unfold mrow. apply map_ext. intros j.
  apply (rescaled_estimate (m_x self) (m_y self) g g' c); assumption.
Qed.

(** The score does not depend on the scale of the weights: multiplying
    every weight by a positive factor leaves what [evaluate] returns
    unchanged, when the solve returns the solution for both weight
    vectors. *)
Theorem evaluate_scale_invariant (self : GoertlerModel) (g : list R) (c : R) :
  sizes_initialised self ->
  Z.of_nat (length g) = m_ngenes self ->
  0 < c ->
  solves (xtgx_of (m_x self) g) (invxtgx llt_solve (m_x self) g)
    (Identity (cols (m_x self)) (cols (m_x self))) ->
  solves (xtgx_of (m_x self) (map (Rmult c) g))
    (invxtgx llt_solve (m_x self) (map (Rmult c) g))
    (Identity (cols (m_x self)) (cols (m_x self))) ->
  evaluate stat_cor self (map (Rmult c) g)
    (invxtgx llt_solve (m_x self) (map (Rmult c) g))
  = evaluate stat_cor self g (invxtgx llt_solve (m_x self) g).
Proof.
  intros Hsizes Hlg Hc Hsol Hsol'.
  apply (evaluate_rescaled_weights self g (map (Rmult c) g) c); try assumption.
  - lra.
  - apply length_map.
  - intros i. apply (coeff_map_linear (Rmult c)). lra.
Qed.

(** Normalising the weights first does not change the score: with the
    NORM2 variant, [evaluate] on the result of [norm_constraint] returns
    what it returns on the weights themselves, for weights that are not all
    zero and systems that the solve solves. *)
Theorem evaluate_after_norm_constraint (self : GoertlerModel) (g : list R) :
  sizes_initialised self ->
  Z.of_nat (length g) = m_ngenes self ->
  m_normfn self = NORM2 ->
  Exists (fun x => x <> 0) g ->
  solves (xtgx_of (m_x self) g) (invxtgx llt_solve (m_x self) g)
    (Identity (cols (m_x self)) (cols (m_x self))) ->
  solves (xtgx_of (m_x self) (arr_div_scalar g (norm g)))
    (invxtgx llt_solve (m_x self) (arr_div_scalar g (norm g)))
    (Identity (cols (m_x self)) (cols (m_x self))) ->
  (norm_constraint self g
     ≫= fun g' => evaluate stat_cor self g' (invxtgx llt_solve (m_x self) g'))
  = evaluate stat_cor self g (invxtgx llt_solve (m_x self) g).
Proof.
  intros Hsizes Hlg Hcfg Hnz Hsol Hsol'.
  unfold norm_constraint. rewrite Hcfg.
  rewrite decide_False by discriminate. rewrite decide_True by reflexivity.
  unfold mbind, outcome_bind.
  pose proof (norm_pos g Hnz) as HN.
  apply (evaluate_rescaled_weights self g (arr_div_scalar g (norm g)) (/ norm g));
    try assumption.
  - apply Rinv_neq_0_compat. lra.
  - apply length_map.
  - intros i. unfold arr_div_scalar.
    rewrite (coeff_map_linear (fun x => x / norm g)); unfold Rdiv; ring.
Qed.

End Rescaling.

Section RescalingExamples.

(** [solve_diagonal] solves the system of [invxtgx] whenever the weighted
    Gram matrix is diagonal without a zero on its diagonal. *)
Lemma solve_diagonal_diagonal_gram (x : mat) (g : list R) (d : nat -> R) :
  (forall i j, (i < cols x)%nat -> (j < cols x)%nat ->
     mcoeff (xtgx_of x g) i j = d i * delta i j) ->
  (forall i, (i < cols x)%nat -> d i <> 0) ->
  solves (xtgx_of x g) (invxtgx solve_diagonal x g) (Identity (cols x) (cols x)).
Proof.
  intros Hgram Hd. split; [reflexivity|]. split; [reflexivity|].
  intros i j Hi Hj.
  change (rows (xtgx_of x g)) with (cols x) in Hi.
  change (cols (Identity (cols x) (cols x))) with (cols x) in Hj.
  unfold invxtgx.
  cbn [mmul mcoeff solve_diagonal Identity].
  change (cols (xtgx_of x g)) with (cols x).
  rewrite (sum_upto_ext (cols x) _ (fun l => delta i l * delta l j)).
  - apply (sum_upto_delta_l (cols x) i (fun l => delta l j) Hi).
  - intros l Hl. rewrite !Hgram by assumption.
    rewrite delta_refl. unfold delta.
    specialize (Hd l Hl).
    destruct (Nat.eqb i l) eqn:Hil.
    + apply Nat.eqb_eq in Hil. subst l. field. exact Hd.
    + field. exact Hd.
Qed.

Lemma identity_design_gram (tf : ThresholdFunctions) (nf : NormFunctions)
  (sf : SubspaceFunctions) (a b : R) (i j : nat) :
  (i < 2)%nat -> (j < 2)%nat ->
  mcoeff (xtgx_of (m_x (configured tf nf sf)) [a; b]) i j = coeff [a; b] i * delta i j.
Proof.
  intros Hi Hj.
  destruct i as [|[|i]]; [| |lia]; (destruct j as [|[|j]]; [| |lia]);
    unfold delta; cbn; lra.
Qed.

Lemma identity_design_solved (tf : ThresholdFunctions) (nf : NormFunctions)
  (sf : SubspaceFunctions) (a b : R) :
  a <> 0 -> b <> 0 ->
  solves (xtgx_of (m_x (configured tf nf sf)) [a; b])
    (invxtgx solve_diagonal (m_x (configured tf nf sf)) [a; b])
    (Identity (cols (m_x (configured tf nf sf))) (cols (m_x (configured tf nf sf)))).
Proof.
  intros Ha Hb.
  apply (solve_diagonal_diagonal_gram (m_x (configured tf nf sf)) [a; b]
           (coeff [a; b])).
  - apply identity_design_gram.
  - intros i Hi. cbn in Hi. destruct i as [|[|i]]; [exact Ha | exact Hb | lia].
Qed.

Lemma evaluate_scale_invariant_witness :
  evaluate pearson_cor (configured SOFTMAX NORM2 POSITIVE) (map (Rmult 2) [3; 4])
    (invxtgx solve_diagonal (m_x (configured SOFTMAX NORM2 POSITIVE))
       (map (Rmult 2) [3; 4]))
  = evaluate pearson_cor (configured SOFTMAX NORM2 POSITIVE) [3; 4]
      (invxtgx solve_diagonal (m_x (configured SOFTMAX NORM2 POSITIVE)) [3; 4]).
Proof.
  apply (evaluate_scale_invariant solve_diagonal pearson_cor
           (configured SOFTMAX NORM2 POSITIVE) [3; 4] 2
           (configured_sizes _ _ _) eq_refl).
  - lra.
  - apply identity_design_solved; lra.
  - apply (identity_design_solved SOFTMAX NORM2 POSITIVE (2 * 3) (2 * 4)); lra.
Defined.

Lemma evaluate_after_norm_constraint_witness :
  (norm_constraint (configured SOFTMAX NORM2 POSITIVE) [3; 4]
     ≫= fun g' =>
          evaluate pearson_cor (configured SOFTMAX NORM2 POSITIVE) g'
            (invxtgx solve_diagonal (m_x (configured SOFTMAX NORM2 POSITIVE)) g'))
  = evaluate pearson_cor (configured SOFTMAX NORM2 POSITIVE) [3; 4]
      (invxtgx solve_diagonal (m_x (configured SOFTMAX NORM2 POSITIVE)) [3; 4]).
Proof.
  assert (Hnz : Exists (fun x => x <> 0) [3; 4]) by (apply Exists_cons_hd; lra).
  pose proof (norm_pos [3; 4] Hnz) as HN.
  apply (evaluate_after_norm_constraint solve_diagonal pearson_cor
           (configured SOFTMAX NORM2 POSITIVE) [3; 4]
           (configured_sizes _ _ _) eq_refl eq_refl Hnz).
  - apply identity_design_solved; lra.
  - apply (identity_design_solved SOFTMAX NORM2 POSITIVE
             (3 / norm [3; 4]) (4 / norm [3; 4])).
    + unfold Rdiv. apply Rmult_integral_contrapositive_currified; [lra|].
      apply Rinv_neq_0_compat. lra.
    + unfold Rdiv. apply Rmult_integral_contrapositive_currified; [lra|].
      apply Rinv_neq_0_compat. lra.
Defined.

End RescalingExamples.

(* ================================================================== *)
(** ** What [check_posdefmat] accepts, and the weighted Gram matrix *)

Section Acceptance.

Lemma mnorm_nonneg (a : mat) : 0 <= mnorm a.
Proof. unfold mnorm. apply sqrt_pos. Qed.

Lemma entry_le_mnorm (a : mat) (i j : nat) :
  (i < rows a)%nat -> (j < cols a)%nat -> Rabs (mcoeff a i j) <= mnorm a.
Proof.
  intros Hi Hj. rewrite <- sqrt_Rsqr_abs. unfold mnorm, Rsqr.
  apply sqrt_le_1_alt.
  apply Rle_trans with (sum_upto (cols a) (fun l => mcoeff a i l * mcoeff a i l)).
  - apply (sum_upto_term_le (cols a) (fun l => mcoeff a i l * mcoeff a i l) j);
      [|exact Hj].
    intros l _. exact (Rle_0_sqr (mcoeff a i l)).
  - apply (sum_upto_term_le (rows a)
             (fun i' => sum_upto (cols a) (fun l => mcoeff a i' l * mcoeff a i' l)) i);
      [|exact Hi].
    intros i' _. apply sum_upto_nonneg. intros l _. exact (Rle_0_sqr (mcoeff a i' l)).
Qed.

(** A tolerance that is not positive rejects every matrix, the exact
    inverse included: the comparison is strict and a norm is not negative.
    The same holds when [x] has no column. *)
Theorem check_posdefmat_rejects (x : mat) (g : list R) (xtgxi : mat) (eps : R) :
  eps <= 0 \/ cols x = 0%nat ->
  check_posdefmat x g xtgxi eps = false.
Proof.
  intros H. unfold check_posdefmat. apply flt_false.
  eapply Rle_trans; [|apply mnorm_nonneg].
  destruct H as [He | Hk].
  - pose proof (pos_INR (cols x * cols x)). nra.
  - rewrite Hk. cbn. lra.
Qed.

(** What acceptance guarantees: every coefficient of
    [xtgxi * x^T * diag(g) * x] is within [n*n*eps] of the identity's. *)
Theorem check_posdefmat_sound (x : mat) (g : list R) (xtgxi : mat) (eps : R) :
  check_posdefmat x g xtgxi eps = true ->
  forall i j, (i < rows xtgxi)%nat -> (j < cols x)%nat ->
    Rabs (mcoeff (mmul (mmul (mmul xtgxi (transpose x)) (asDiagonal g)) x) i j
          - delta i j)
    < INR (cols x * cols x) * eps.
Proof.
  intros H i j Hi Hj. unfold check_posdefmat, flt in H.
  destruct (Rlt_dec _ _) as [Hlt|]; [|discriminate].
  eapply Rle_lt_trans; [|exact Hlt].
  apply (entry_le_mnorm
           (msub (mmul (mmul (mmul xtgxi (transpose x)) (asDiagonal g)) x)
              (Identity (cols x) (cols x))) i j); assumption.
Qed.

Lemma sum_upto_product (n m : nat) (f h : nat -> R) :
  sum_upto n f * sum_upto m h
  = sum_upto n (fun i => sum_upto m (fun j => f i * h j)).
Proof.
  rewrite <- sum_upto_scale_r. apply sum_upto_ext. intros i _.
  rewrite sum_upto_scale_l. reflexivity.
Qed.

(** The coefficients of the weighted Gram matrix: a weighted sum over the
    genes. *)
Lemma gram_coefficient (x : mat) (g : list R) (i j : nat) :
  length g = rows x ->
  mcoeff (xtgx_of x g) i j
  = sum_upto (rows x) (fun b => coeff g b * (mcoeff x b i * mcoeff x b j)).
Proof.
  intros Hlen. unfold xtgx_of. cbn [mmul transpose asDiagonal mcoeff rows cols].
  rewrite Hlen. apply sum_upto_ext. intros b Hb.
  rewrite (sum_upto_ext (rows x) _ (fun a => (mcoeff x a i * coeff g a) * delta a b)).
  2:{ intros a _. unfold delta. destruct (Nat.eqb a b); lra. }
  rewrite (sum_upto_delta_r (rows x) b (fun a => mcoeff x a i * coeff g a) Hb). lra.
Qed.

(** The quadratic form of the weighted Gram matrix is a weighted sum of
    squares. *)
Lemma gram_quad_form (x : mat) (g : list R) (v : nat -> R) :
  length g = rows x ->
  quad_form (xtgx_of x g) v
  = sum_upto (rows x)
      (fun b => coeff g b
                * (sum_upto (cols x) (fun i => v i * mcoeff x b i)
                   * sum_upto (cols x) (fun i => v i * mcoeff x b i))).
Proof.
  intros Hlen. unfold quad_form.
  change (rows (xtgx_of x g)) with (cols x).
  change (cols (xtgx_of x g)) with (cols x).
  transitivity
    (sum_upto (rows x)
       (fun b => sum_upto (cols x)
                   (fun i => sum_upto (cols x)
                               (fun j => coeff g b
                                         * ((v i * mcoeff x b i)
                                            * (v j * mcoeff x b j)))))).
  2:{ apply sum_upto_ext. intros b _. symmetry.
      rewrite sum_upto_product, <- sum_upto_scale_l.
      apply sum_upto_ext. intros i _. rewrite <- sum_upto_scale_l. reflexivity. }
  rewrite (sum_upto_swap (rows x) (cols x)). apply sum_upto_ext. intros i _.
  rewrite (sum_upto_swap (rows x) (cols x)). apply sum_upto_ext. intros j _.
  rewrite (gram_coefficient x g i j Hlen).
  rewrite <- sum_upto_scale_l, <- sum_upto_scale_r.
  apply sum_upto_ext. intros b _. lra.
Qed.

(** With weights that are not negative, the matrix that [invxtgx] hands to
    the Cholesky solve is positive semi-definite. *)
Theorem gram_positive_semidefinite (x : mat) (g : list R) (v : nat -> R) :
  length g = rows x ->
  Forall (fun w => 0 <= w) g ->
  0 <= quad_form (xtgx_of x g) v.
Proof.
  intros Hlen Hg. rewrite (gram_quad_form x g v Hlen).
  apply sum_upto_nonneg. intros b Hb.
  apply Rmult_le_pos.
  - unfold coeff. rewrite <- Hlen in Hb.
    rewrite List.Forall_forall in Hg. apply Hg. apply nth_In. exact Hb.
  - exact (Rle_0_sqr _).
Qed.

(** With weights of which none is positive, the matrix that [invxtgx]
    hands to the Cholesky solve is not positive definite, whatever [x]
    is. *)
Theorem gram_not_positive_definite (x : mat) (g : list R) :
  length g = rows x ->
  Forall (fun w => w <= 0) g ->
  (0 < cols x)%nat ->
  ~ SPD (xtgx_of x g).
Proof.
  intros Hlen Hg Hk (_ & _ & Hpos).
  specialize (Hpos (delta 0)).
  assert (Hv : exists i, (i < rows (xtgx_of x g))%nat /\ delta 0 i <> 0).
  { exists 0%nat. split; [exact Hk|]. rewrite delta_refl. lra. }
  apply Hpos in Hv. rewrite (gram_quad_form x g (delta 0) Hlen) in Hv.
  assert (Hle : 0 <= sum_upto (rows x)
                  (fun b => -1 * (coeff g b
                     * (sum_upto (cols x) (fun i => delta 0 i * mcoeff x b i)
                        * sum_upto (cols x) (fun i => delta 0 i * mcoeff x b i))))).
  { apply sum_upto_nonneg. intros b Hb.
    assert (Hgb : coeff g b <= 0).
    { unfold coeff. rewrite <- Hlen in Hb.
      rewrite List.Forall_forall in Hg. apply Hg. apply nth_In. exact Hb. }
    pose proof (Rle_0_sqr (sum_upto (cols x) (fun i => delta 0 i * mcoeff x b i)))
      as Hsq.
    unfold Rsqr in Hsq. nra. }
  rewrite sum_upto_scale_l in Hle. lra.
Qed.

End Acceptance.

Section AcceptanceExamples.

Lemma identity_accepted :
  check_posdefmat (m_x (configured SOFTMAX IDENTITY POSITIVE)) [1; 1] (Identity 2 2) 1
  = true.
Proof.
  unfold check_posdefmat. apply flt_true. unfold mnorm, sum_upto. cbn.
  match goal with |- sqrt ?e < _ => replace e with 0 by lra end.
  rewrite sqrt_0. lra.
Qed.

Lemma check_posdefmat_rejects_witness :
  check_posdefmat (m_x (configured SOFTMAX IDENTITY POSITIVE)) [1; 1] (Identity 2 2) 0
  = false.
Proof.
  apply (check_posdefmat_rejects (m_x (configured SOFTMAX IDENTITY POSITIVE)) [1; 1]
           (Identity 2 2) 0).
  left. lra.
Defined.

Lemma check_posdefmat_sound_witness :
  check_posdefmat (m_x (configured SOFTMAX IDENTITY POSITIVE)) [1; 1] (Identity 2 2) 1
  = true
  /\ Rabs (mcoeff
             (mmul (mmul (mmul (Identity 2 2)
                            (transpose (m_x (configured SOFTMAX IDENTITY POSITIVE))))
                      (asDiagonal [1; 1]))
                (m_x (configured SOFTMAX IDENTITY POSITIVE))) 0 1
           - delta 0 1)
     < INR (cols (m_x (configured SOFTMAX IDENTITY POSITIVE))
            * cols (m_x (configured SOFTMAX IDENTITY POSITIVE))) * 1.
Proof.
  split; [exact identity_accepted|].
  apply (check_posdefmat_sound (m_x (configured SOFTMAX IDENTITY POSITIVE)) [1; 1]
           (Identity 2 2) 1 identity_accepted 0%nat 1%nat); cbn; lia.
Defined.

Lemma gram_positive_semidefinite_witness :
  0 <= quad_form (xtgx_of (m_x (configured SOFTMAX IDENTITY POSITIVE)) [0; 2]) (delta 1).
Proof.
  apply (gram_positive_semidefinite (m_x (configured SOFTMAX IDENTITY POSITIVE)) [0; 2]
           (delta 1)).
  - reflexivity.
  - repeat constructor; lra.
Defined.

Lemma gram_not_positive_definite_witness :
  length [-1; 0] = rows (m_x (configured SOFTMAX IDENTITY POSITIVE))
  /\ ~ SPD (xtgx_of (m_x (configured SOFTMAX IDENTITY POSITIVE)) [-1; 0]).
Proof.
  split; [reflexivity|].
  apply (gram_not_positive_definite (m_x (configured SOFTMAX IDENTITY POSITIVE)) [-1; 0]).
  - reflexivity.
  - repeat constructor; lra.
  - cbn. lia.
Defined.

End AcceptanceExamples.

(* ================================================================== *)
(** ** The gradient under a change of scale of the weights *)

Section GradientScaling.

Variable llt_solve : mat -> mat -> mat.
Variable stat_cov : list R -> list R -> R.
Variable stat_std : list R -> R.

Lemma for_upto_ext {S : Type} (n : nat) (body body' : nat -> S -> S) (s : S) :
  (forall i, (i < n)%nat -> forall s, body i s = body' i s) ->
  for_upto n body s = for_upto n body' s.
Proof.
  induction n as [|n IH]; intros H; [reflexivity|].
  rewrite !for_upto_S, IH by (intros i Hi; apply H; lia). apply H. lia.
Qed.

Lemma set_rows_shape (n : nat) (r : nat -> list R) (A : mat) :
  rows (for_upto n (fun i A => set_row A i (r i)) A) = rows A.
Proof.
  induction n as [|n IH]; [reflexivity|].
  rewrite for_upto_S. cbn [set_row rows]. exact IH.
Qed.

Lemma sensitivity_rows (self : GoertlerModel) (c_hat : mat) :
  rows (sensitivity stat_cov stat_std self c_hat) = Z.to_nat (m_ncells self).
Proof. unfold sensitivity. rewrite set_rows_shape. reflexivity. Qed.

(** What [grad_explicit_inverse] returns once its three assertions hold. *)
Lemma grad_explicit_inverse_when_asserts_hold (self : GoertlerModel) (gr g : list R)
  (xtgxi : mat) :
  sizes_initialised self ->
  Z.of_nat (length g) = m_ngenes self ->
  rows xtgxi = cols (m_x self) ->
  grad_explicit_inverse stat_cov stat_std self gr g xtgxi
  = Ret (clampPos
           (diagonal
              (grad_tmp self g xtgxi
                 (sensitivity stat_cov stat_std self
                    (estimate_c_direct (m_x self) (m_y self) g xtgxi))))).
Proof.
  intros (Hn & Hk & Hs) Hg Hrows. unfold grad_explicit_inverse.
  rewrite !assert_true_then; [reflexivity | | |]; apply Z.eqb_eq.
  - cbn. symmetry. exact Hs.
  - cbn. rewrite Hrows, Hk. reflexivity.
  - exact Hg.
Qed.

Lemma estimate_cols (x y : mat) (g : list R) (xi : mat) :
  cols (estimate_c_direct x y g xi) = cols y.
Proof. reflexivity. Qed.

(** The matrix [A] only reads the rows of the estimate, which do not
    change with the scale of the weights. *)
Lemma sensitivity_rescaled (self : GoertlerModel) (g g' : list R) (c : R) (xi xi' : mat) :
  sizes_initialised self ->
  c <> 0 ->
  length g' = length g ->
  (forall i, coeff g' i = c * coeff g i) ->
  solves (xtgx_of (m_x self) g) xi (Identity (cols (m_x self)) (cols (m_x self))) ->
  solves (xtgx_of (m_x self) g') xi' (Identity (cols (m_x self)) (cols (m_x self))) ->
  sensitivity stat_cov stat_std self (estimate_c_direct (m_x self) (m_y self) g' xi')
  = sensitivity stat_cov stat_std self (estimate_c_direct (m_x self) (m_y self) g xi).
Proof.
  intros (Hn & Hk & Hs) Hc Hlen Hg Hsol Hsol'.
  unfold sensitivity. apply for_upto_ext. intros i Hi A. f_equal.
  rewrite Hk, Nat2Z.id in Hi.
  assert (Hrow : mrow (estimate_c_direct (m_x self) (m_y self) g' xi') i
                 = mrow (estimate_c_direct (m_x self) (m_y self) g xi) i).
  { unfold mrow. rewrite !estimate_cols. apply map_ext. intros j.
    apply (rescaled_estimate (m_x self) (m_y self) g g' c xi xi'); assumption. }
  unfold sensitivity_row. rewrite Hrow. reflexivity.
Qed.

Lemma scaled_chain (R1 R2 At xi xi' Xt : mat) (c : R) (i j : nat) :
  cols R2 = cols R1 ->
  (forall a b, mcoeff R2 a b = mcoeff R1 a b) ->
  cols xi' = cols xi ->
  (forall m l, (m < cols At)%nat -> (l < cols xi)%nat ->
     mcoeff xi' m l = mcoeff xi m l / c) ->
  mcoeff (mmul (mmul (mmul R2 At) xi') Xt) i j
  = mcoeff (mmul (mmul (mmul R1 At) xi) Xt) i j / c.
Proof.
  intros HcR HR Hcxi Hxi.
  cbn [mmul mcoeff rows cols]. rewrite HcR, Hcxi.
  unfold Rdiv. rewrite <- sum_upto_scale_r. apply sum_upto_ext. intros l Hl.
  rewrite (sum_upto_ext (cols At) _
             (fun m => sum_upto (cols R1) (fun n => mcoeff R1 i n * mcoeff At n m)
                       * mcoeff xi m l * / c)).
  2:{ intros m Hm. rewrite (Hxi m l Hm Hl).
      rewrite (sum_upto_ext (cols R1) _ (fun n => mcoeff R1 i n * mcoeff At n m)).
      2:{ intros n _. rewrite HR. reflexivity. }
      unfold Rdiv. ring. }
  rewrite sum_upto_scale_r. ring.
Qed.

Lemma grad_tmp_rescaled (self : GoertlerModel) (g g' : list R) (c : R)
  (xi xi' A : mat) (i j : nat) :
  c <> 0 ->
  length g' = length g ->
  (forall i, coeff g' i = c * coeff g i) ->
  solves (xtgx_of (m_x self) g) xi (Identity (cols (m_x self)) (cols (m_x self))) ->
  solves (xtgx_of (m_x self) g') xi' (Identity (cols (m_x self)) (cols (m_x self))) ->
  rows A = cols (m_x self) ->
  mcoeff (grad_tmp self g' xi' A) i j = mcoeff (grad_tmp self g xi A) i j / c.
Proof.
  intros Hc Hlen Hg Hsol Hsol' HA.
  pose proof Hsol as (_ & Hcols & _). pose proof Hsol' as (_ & Hcols' & _).
  cbn in Hcols, Hcols'.
  unfold grad_tmp. apply scaled_chain.
  - reflexivity.
  - intros a b. cbn [msub mcoeff]. f_equal.
    destruct (mmul_chain5 (m_x self) xi' (transpose (m_x self)) (asDiagonal g')
                (m_y self)) as [_ ->].
    destruct (mmul_chain5 (m_x self) xi (transpose (m_x self)) (asDiagonal g)
                (m_y self)) as [_ ->].
    rewrite !(mcoeff_mmul (m_x self)).
    apply sum_upto_ext. intros m Hm. f_equal.
    apply (rescaled_estimate (m_x self) (m_y self) g g' c xi xi'); assumption.
  - congruence.
  - intros m l Hm Hl. cbn [transpose cols] in Hm. rewrite HA in Hm.
    rewrite Hcols in Hl.
    apply (rescaled_inverse (m_x self) g g' c xi xi'); assumption.
Qed.

Lemma std_min_scaled (e c : R) : 0 < c -> std_min (e / c) 0 = std_min e 0 / c.
Proof.
  intros Hc. pose proof (Rinv_0_lt_compat c Hc) as Hi.
  unfold std_min, flt, Rdiv.
  destruct (Rlt_dec 0 (e * / c)) as [H1|H1], (Rlt_dec 0 e) as [H2|H2]; try lra; nra.
Qed.

Lemma grad_tmp_shape (self : GoertlerModel) (g : list R) (xi A : mat) :
  Nat.min (rows (grad_tmp self g xi A)) (cols (grad_tmp self g xi A))
  = Nat.min (rows (m_y self)) (rows (m_x self)).
Proof. reflexivity. Qed.

(** The gradient is homogeneous of degree -1 in the weights: multiplying
    every weight by [c > 0] divides every entry of what [grad] returns by
    [c], when the solve returns the solution for both weight vectors.  What
    the output vector held before the call plays no role. *)
Theorem grad_scale (self : GoertlerModel) (gr gr' g : list R) (c : R) :
  sizes_initialised self ->
  Z.of_nat (length g) = m_ngenes self ->
  0 < c ->
  solves (xtgx_of (m_x self) g) (invxtgx llt_solve (m_x self) g)
    (Identity (cols (m_x self)) (cols (m_x self))) ->
  solves (xtgx_of (m_x self) (map (Rmult c) g))
    (invxtgx llt_solve (m_x self) (map (Rmult c) g))
    (Identity (cols (m_x self)) (cols (m_x self))) ->
  grad llt_solve stat_cov stat_std self gr' (map (Rmult c) g)
  = (grad llt_solve stat_cov stat_std self gr g
       ≫= fun r => Ret (map (fun e => e / c) r)).
Proof.
  intros Hsizes Hlg Hc Hsol Hsol'.
  pose proof Hsol as (Hrows & _ & _). pose proof Hsol' as (Hrows' & _ & _).
  cbn in Hrows, Hrows'.
  assert (Hc0 : c <> 0) by lra.
  assert (Hlen : length (map (Rmult c) g) = length g) by apply length_map.
  assert (Hg : forall i, coeff (map (Rmult c) g) i = c * coeff g i).
  { intros i. apply (coeff_map_linear (Rmult c)). lra. }
  assert (Hlg' : Z.of_nat (length (map (Rmult c) g)) = m_ngenes self)
    by (rewrite Hlen; exact Hlg).
  unfold grad.
  rewrite (grad_explicit_inverse_when_asserts_hold self gr' _ _ Hsizes Hlg' Hrows').
  rewrite (grad_explicit_inverse_when_asserts_hold self gr _ _ Hsizes Hlg Hrows).
  unfold mbind, outcome_bind. f_equal.
  rewrite (sensitivity_rescaled self g (map (Rmult c) g) c _ _
             Hsizes Hc0 Hlen Hg Hsol Hsol').
  rewrite !clampPos_map. unfold diagonal. rewrite !map_map, !grad_tmp_shape.
  apply map_ext. intros i.
  rewrite (grad_tmp_rescaled self g (map (Rmult c) g) c _ _ _ i i
             Hc0 Hlen Hg Hsol Hsol').
  - apply std_min_scaled, Hc.
  - rewrite sensitivity_rows. destruct Hsizes as (_ & -> & _). apply Nat2Z.id.
Qed.

End GradientScaling.

Section GradientScalingExamples.

Lemma grad_scale_witness :
  grad solve_diagonal pop_cov pop_std (configured SOFTMAX NORM2 POSITIVE) []
    (map (Rmult 2) [3; 4])
  = (grad solve_diagonal pop_cov pop_std (configured SOFTMAX NORM2 POSITIVE) [0; 0] [3; 4]
       ≫= fun r => Ret (map (fun e => e / 2) r)).
Proof.
  apply (grad_scale solve_diagonal pop_cov pop_std
           (configured SOFTMAX NORM2 POSITIVE) [0; 0] [] [3; 4] 2
           (configured_sizes _ _ _) eq_refl).
  - lra.
  - apply identity_design_solved; lra.
  - apply (identity_design_solved SOFTMAX NORM2 POSITIVE (2 * 3) (2 * 4)); lra.
Defined.

End GradientScalingExamples.
